(** * asyncio_helpers: a shallow embedding of [asyncio_helpers/__init__.py]

    The module bridges blocking threads and asyncio event loops.  Its four
    entry points ([ensure_event_loop], [with_loop], [cancellable], [sync]) are
    embedded below as functions of a small state-and-exception monad over an
    explicit world: the event-loop policy's thread-local bindings, the heap of
    [Event] objects with their dynamic attributes, the ready queues of the
    loops and a chronological trace of the primitive effects.

    What is not code of the package (CPython's [asyncio], [threading] and
    [platform]) is kept small and explicit: the event-loop policy is an
    interface ([EventLoopPolicy]) with CPython's default policy as one
    instance, and a background thread is run to its end at the point where
    the caller starts it and then blocks on the completion flag. *)

From stdpp Require Import gmap strings list pretty.

Open Scope string_scope.

(** ** Python values, exceptions and call results *)

(** The built-in exception classes the module can meet, with CPython's
    hierarchy given by the method resolution order. *)
Inductive exc_class : Type :=
| BaseException
| SystemExit
| KeyboardInterrupt
| Exception
| RuntimeError
| NotImplementedError
| TypeError
| ValueError
| AttributeError.

#[global] Instance exc_class_eq_dec : EqDecision exc_class.
Proof. solve_decision. Defined.

Definition mro (c : exc_class) : list exc_class :=
  match c with
  | BaseException => [BaseException]
  | SystemExit => [SystemExit; BaseException]
  | KeyboardInterrupt => [KeyboardInterrupt; BaseException]
  | Exception => [Exception; BaseException]
  | RuntimeError => [RuntimeError; Exception; BaseException]
  | NotImplementedError =>
      [NotImplementedError; RuntimeError; Exception; BaseException]
  | TypeError => [TypeError; Exception; BaseException]
  | ValueError => [ValueError; Exception; BaseException]
  | AttributeError => [AttributeError; Exception; BaseException]
  end.

Definition issubclass (c d : exc_class) : bool := bool_decide (d ∈ mro c).

(** An exception instance: its class and [str(e)]. *)
Record exn : Type := Exn { exn_class : exc_class; exn_str : string }.

#[global] Instance exn_eq_dec : EqDecision exn.
Proof. solve_decision. Defined.

Definition isinstance (e : exn) (c : exc_class) : bool :=
  issubclass (exn_class e) c.

(** The two event loop classes of asyncio. *)
Inductive loop_class : Type := SelectorEventLoop | ProactorEventLoop.

#[global] Instance loop_class_eq_dec : EqDecision loop_class.
Proof. solve_decision. Defined.

(** A loop object: its identity and its class. *)
Record Loop : Type := MkLoop { loop_id : nat; loop_type : loop_class }.

#[global] Instance Loop_eq_dec : EqDecision Loop.
Proof. solve_decision. Defined.

Inductive value : Type :=
| VNone
| VBool (b : bool)
| VInt (n : Z)
| VStr (s : string)
| VLoop (l : Loop)
| VExc (e : exn).

#[global] Instance value_eq_dec : EqDecision value.
Proof. solve_decision. Defined.

(** What a call does: it returns, raises, blocks for ever on a flag nobody
    sets, or (a [while True] loop run with too little fuel) is cut short. *)
Inductive result (A : Type) : Type :=
| Return (a : A)
| Raise (e : exn)
| Blocked
| OutOfFuel.

Arguments Return {A} a.
Arguments Raise {A} e.
Arguments Blocked {A}.
Arguments OutOfFuel {A}.

(** A coroutine object is represented by what driving it to completion
    gives.  A coroutine function takes positional and keyword arguments and
    either raises at the call (a [TypeError] for arguments that do not fit
    its signature) or hands back a coroutine object. *)
Definition coroutine : Type := result value.
Definition kwargs : Type := gmap string value.
Definition pyfunc : Type := list value → kwargs → exn + coroutine.

(** Awaiting the call of [f] on [args] and [kw], with nothing in between. *)
Definition await_call (f : pyfunc) (args : list value) (kw : kwargs)
  : result value :=
  match f args kw with
  | inl e => Raise e
  | inr c => c
  end.

(** A future is a coroutine wrapped into a task of some loop. *)
Inductive awaitable : Type :=
| Coro (c : coroutine)
| Task (l : Loop) (c : coroutine).

(** ** The world *)

(** Callbacks handed to [call_soon_threadsafe]: the bound method [done.set]
    of an event object, and the [_cancel] closure of [cancellable]. *)
Inductive callback : Type :=
| CbEventSet (ev : nat)
| CbCancel.

(** Primitive effects, recorded in the order they happen. *)
Inductive event : Type :=
| EvNew (ev : nat)
| EvClear (ev : nat)
| EvSet (ev : nat)
| EvSetAttr (ev : nat) (name : string) (v : value)
| EvRun (l : Loop)
| EvClose (l : Loop)
| EvCallSoon (l : Loop) (cb : callback)
| EvTaskCancel (task : nat)
| EvThread (th : nat)
| EvLog (msg : string).

(** An [Event] object ([threading.Event] or [asyncio.Event]): the flag and
    the instance dictionary that [ev.name = v] writes. *)
Record EventObj : Type := MkEvent {
  ev_flag : bool;
  ev_dict : gmap string value
}.

Definition fresh_event : EventObj := MkEvent false ∅.

(** [St] is the state of the event-loop policy (its thread-local storage). *)
Record World (St : Type) : Type := MkWorld {
  w_local : St;
  w_system : string;               (* platform.system() *)
  w_running : gmap nat Loop;       (* thread -> the loop it is running *)
  w_closed : gset nat;             (* identities of the closed loops *)
  w_ready : gmap nat (list callback);  (* loop identity -> ready queue *)
  w_tasks : gmap nat (list nat);   (* loop identity -> its tasks *)
  w_current : gmap nat nat;        (* loop identity -> task being stepped *)
  w_faults : list exn;             (* failures the next enumerations meet *)
  w_events : gmap nat EventObj;    (* heap of Event objects *)
  w_next_event : nat;
  w_next_thread : nat;
  w_trace : list event             (* newest effect first *)
}.

Arguments MkWorld {St}.
Arguments w_local {St}.
Arguments w_system {St}.
Arguments w_running {St}.
Arguments w_closed {St}.
Arguments w_ready {St}.
Arguments w_tasks {St}.
Arguments w_current {St}.
Arguments w_faults {St}.
Arguments w_events {St}.
Arguments w_next_event {St}.
Arguments w_next_thread {St}.
Arguments w_trace {St}.

(** asyncio's [AbstractEventLoopPolicy]: the three methods the module
    reaches through [asyncio.get_event_loop], [asyncio.set_event_loop] and
    [asyncio.new_event_loop].  The first argument is the calling thread. *)
Record EventLoopPolicy (St : Type) : Type := MkPolicy {
  pol_get_event_loop : nat → St → (exn + Loop) * St;
  pol_set_event_loop : nat → Loop → St → St;
  pol_new_event_loop : St → Loop * St
}.

Arguments pol_get_event_loop {St}.
Arguments pol_set_event_loop {St}.
Arguments pol_new_event_loop {St}.

(** What a policy owes its callers: the loop it hands out stays the
    thread's loop, and a loop that was bound is the one handed out. *)
Record PolicyLaws {St : Type} (P : EventLoopPolicy St) : Prop := {
  get_stable : ∀ t s s' l,
    pol_get_event_loop P t s = (inr l, s') →
    pol_get_event_loop P t s' = (inr l, s');
  get_bound : ∀ t l s,
    pol_get_event_loop P t (pol_set_event_loop P t l s)
    = (inr l, pol_set_event_loop P t l s)
}.

(** ** The monad: a calling thread, a world, a result *)

Definition M (St A : Type) : Type := nat → World St → result A * World St.

Definition ret {St A} (a : A) : M St A := λ _ w, (Return a, w).

Definition bind {St A B} (m : M St A) (k : A → M St B) : M St B :=
  λ t w,
    match m t w with
    | (Return a, w') => k a t w'
    | (Raise e, w') => (Raise e, w')
    | (Blocked, w') => (Blocked, w')
    | (OutOfFuel, w') => (OutOfFuel, w')
    end.

Definition raise {St A} (e : exn) : M St A := λ _ w, (Raise e, w).

#[global] Instance M_ret {St} : MRet (M St) := @ret St.
#[global] Instance M_bind {St} : MBind (M St) := λ A B k m, bind m k.

(** [try: body  except C as e: handler e] *)
Definition try_except {St A} (body : M St A) (C : exc_class)
    (handler : exn → M St A) : M St A :=
  λ t w,
    match body t w with
    | (Raise e, w') =>
        if isinstance e C then handler e t w' else (Raise e, w')
    | r => r
    end.

(** What a [finally] clause makes of the outcome of the clauses before
    it: an exception still on its way is raised again once [fin] has run,
    and one raised by [fin] replaces it. *)
Definition run_finally {St} (fin : M St unit) (t : nat)
    (r : result unit * World St) : result unit * World St :=
  match r with
  | (Return _, w') => fin t w'
  | (Raise e, w') =>
      match fin t w' with
      | (Return _, w'') => (Raise e, w'')
      | r' => r'
      end
  | r' => r'
  end.

(** [try: v = body  except C as e: handler e  else: orelse v  finally: fin] *)
Definition try_except_else_finally {St A} (body : M St A) (C : exc_class)
    (handler : exn → M St unit) (orelse : A → M St unit) (fin : M St unit)
  : M St unit :=
  λ t w,
    match body t w with
    | (Return a, w') => run_finally fin t (orelse a t w')
    | (Raise e, w') =>
        if isinstance e C then run_finally fin t (handler e t w')
        else run_finally fin t (Raise e, w')
    | (Blocked, w') => (Blocked, w')
    | (OutOfFuel, w') => (OutOfFuel, w')
    end.

(** ** Updating one field of the world *)

Definition with_local {St} (s : St) (w : World St) : World St :=
  MkWorld s (w_system w) (w_running w) (w_closed w) (w_ready w) (w_tasks w)
    (w_current w) (w_faults w) (w_events w) (w_next_event w)
    (w_next_thread w) (w_trace w).

Definition with_closed {St} (c : gset nat) (w : World St) : World St :=
  MkWorld (w_local w) (w_system w) (w_running w) c (w_ready w) (w_tasks w)
    (w_current w) (w_faults w) (w_events w) (w_next_event w)
    (w_next_thread w) (w_trace w).

Definition with_ready {St} (q : gmap nat (list callback)) (w : World St)
  : World St :=
  MkWorld (w_local w) (w_system w) (w_running w) (w_closed w) q (w_tasks w)
    (w_current w) (w_faults w) (w_events w) (w_next_event w)
    (w_next_thread w) (w_trace w).

Definition with_faults {St} (fs : list exn) (w : World St) : World St :=
  MkWorld (w_local w) (w_system w) (w_running w) (w_closed w) (w_ready w)
    (w_tasks w) (w_current w) fs (w_events w) (w_next_event w)
    (w_next_thread w) (w_trace w).

Definition with_events {St} (h : gmap nat EventObj) (w : World St) : World St :=
  MkWorld (w_local w) (w_system w) (w_running w) (w_closed w) (w_ready w)
    (w_tasks w) (w_current w) (w_faults w) h (w_next_event w)
    (w_next_thread w) (w_trace w).

Definition with_next_event {St} (n : nat) (w : World St) : World St :=
  MkWorld (w_local w) (w_system w) (w_running w) (w_closed w) (w_ready w)
    (w_tasks w) (w_current w) (w_faults w) (w_events w) n
    (w_next_thread w) (w_trace w).

Definition with_next_thread {St} (n : nat) (w : World St) : World St :=
  MkWorld (w_local w) (w_system w) (w_running w) (w_closed w) (w_ready w)
    (w_tasks w) (w_current w) (w_faults w) (w_events w) (w_next_event w)
    n (w_trace w).

Definition with_trace {St} (tr : list event) (w : World St) : World St :=
  MkWorld (w_local w) (w_system w) (w_running w) (w_closed w) (w_ready w)
    (w_tasks w) (w_current w) (w_faults w) (w_events w) (w_next_event w)
    (w_next_thread w) tr.

Definition record {St} (e : event) (w : World St) : World St :=
  with_trace (e :: w_trace w) w.

(** The object behind a reference; one never written is in its initial
    state. *)
Definition event_obj {St} (ev : nat) (w : World St) : EventObj :=
  default fresh_event (w_events w !! ev).

Definition is_running {St} (l : Loop) (w : World St) : bool :=
  bool_decide (l ∈ (map_to_list (w_running w)).*2).

Definition is_closed {St} (l : Loop) (w : World St) : bool :=
  bool_decide (loop_id l ∈ w_closed w).

(** [needle in haystack] on Python strings. *)
Fixpoint contains (needle haystack : string) : bool :=
  String.prefix needle haystack ||
  match haystack with
  | EmptyString => false
  | String _ rest => contains needle rest
  end.

(** [type(loop)] as an f-string prints it, on Windows. *)
Definition class_repr (c : loop_class) : string :=
  match c with
  | SelectorEventLoop =>
      "<class 'asyncio.windows_events._WindowsSelectorEventLoop'>"
  | ProactorEventLoop => "<class 'asyncio.windows_events.ProactorEventLoop'>"
  end.

Definition no_attribute (owner name : string) : exn :=
  Exn AttributeError
    ("'" ++ owner ++ "' object has no attribute '" ++ name ++ "'").

Section Model.
Context {St : Type} (P : EventLoopPolicy St).

(** ** The collaborators: logging, platform, asyncio, threading *)

Definition emit (e : event) : M St unit := λ _ w, (Return (), record e w).

(** [_L().debug(msg)] *)
Definition _L_debug (msg : string) : M St unit := emit (EvLog msg).

(** [platform.system()] *)
Definition platform_system : M St string := λ _ w, (Return (w_system w), w).

(** The attribute [asyncio.ProactorEventLoop]: asyncio exports the class
    in its Windows build only. *)
Definition asyncio_ProactorEventLoop : M St loop_class :=
  λ _ w,
    if bool_decide (w_system w = "Windows") then (Return ProactorEventLoop, w)
    else (Raise (Exn AttributeError
                   "module 'asyncio' has no attribute 'ProactorEventLoop'"),
          w).

(** [asyncio.get_event_loop()]: the loop running in the calling thread when
    there is one, the policy's answer otherwise. *)
Definition asyncio_get_event_loop : M St Loop :=
  λ t w,
    match w_running w !! t with
    | Some l => (Return l, w)
    | None =>
        match pol_get_event_loop P t (w_local w) with
        | (inr l, s) => (Return l, with_local s w)
        | (inl e, s) => (Raise e, with_local s w)
        end
    end.

(** [asyncio.new_event_loop()] *)
Definition asyncio_new_event_loop : M St Loop :=
  λ _ w,
    let '(l, s) := pol_new_event_loop P (w_local w) in
    (Return l, with_local s w).

(** [asyncio.set_event_loop(loop)] *)
Definition asyncio_set_event_loop (l : Loop) : M St unit :=
  λ t w, (Return (), with_local (pol_set_event_loop P t l (w_local w)) w).

(** [loop.is_running()] *)
Definition loop_is_running (l : Loop) : M St bool :=
  λ _ w, (Return (is_running l w), w).

(** [asyncio.ensure_future(coro)]: a task of the calling thread's loop. *)
Definition asyncio_ensure_future (c : coroutine) : M St awaitable :=
  l ← asyncio_get_event_loop; mret (Task l c).

(** [loop.run_until_complete(future)]: refused on a closed loop, on a
    running loop, in a thread that is running a loop, and for a future of
    another loop; otherwise the coroutine is driven to its end. *)
Definition loop_run_until_complete (l : Loop) (fut : awaitable) : M St value :=
  λ t w,
    if is_closed l w then
      (Raise (Exn RuntimeError "Event loop is closed"), w)
    else if is_running l w then
      (Raise (Exn RuntimeError "This event loop is already running"), w)
    else if bool_decide (is_Some (w_running w !! t)) then
      (Raise (Exn RuntimeError
                "Cannot run the event loop while another loop is running"), w)
    else
      match fut with
      | Task l' c =>
          if bool_decide (l' = l) then (c, record (EvRun l) w)
          else (Raise (Exn ValueError
                  "The future belongs to a different loop than the one specified as the loop argument"),
                w)
      | Coro c => (c, record (EvRun l) w)
      end.

(** [loop.close()] *)
Definition loop_close (l : Loop) : M St unit :=
  λ _ w,
    if is_running l w then
      (Raise (Exn RuntimeError "Cannot close a running event loop"), w)
    else if is_closed l w then (Return (), w)
    else (Return (),
          record (EvClose l) (with_closed ({[loop_id l]} ∪ w_closed w) w)).

(** [loop.call_soon_threadsafe(cb)]: the callback joins the ready queue of
    the loop, which runs it on its own thread. *)
Definition loop_call_soon_threadsafe (l : Loop) (cb : callback) : M St unit :=
  λ _ w,
    if is_closed l w then
      (Raise (Exn RuntimeError "Event loop is closed"), w)
    else
      (Return (),
       record (EvCallSoon l cb)
         (with_ready
            (<[loop_id l := (default [] (w_ready w !! loop_id l) ++ [cb])%list]>
               (w_ready w)) w)).

(** [threading.Event()] and [asyncio.Event()]: a new object, flag down. *)
Definition Event_new : M St nat :=
  λ _ w,
    let ev := w_next_event w in
    (Return ev,
     record (EvNew ev)
       (with_next_event (S ev)
          (with_events (<[ev := fresh_event]> (w_events w)) w))).

Definition update_event (ev : nat) (f : EventObj → EventObj) (w : World St)
  : World St :=
  with_events (<[ev := f (event_obj ev w)]> (w_events w)) w.

(** [ev.clear()] *)
Definition Event_clear (ev : nat) : M St unit :=
  λ _ w,
    (Return (),
     record (EvClear ev)
       (update_event ev (λ o, MkEvent false (ev_dict o)) w)).

(** [ev.set()] *)
Definition Event_set (ev : nat) : M St unit :=
  λ _ w,
    (Return (),
     record (EvSet ev) (update_event ev (λ o, MkEvent true (ev_dict o)) w)).

(** [ev.name = v] *)
Definition setattr (ev : nat) (name : string) (v : value) : M St unit :=
  λ _ w,
    (Return (),
     record (EvSetAttr ev name v)
       (update_event ev
          (λ o, MkEvent (ev_flag o) (<[name := v]> (ev_dict o))) w)).

(** [ev.name] *)
Definition getattr (ev : nat) (name : string) : M St value :=
  λ _ w,
    match ev_dict (event_obj ev w) !! name with
    | Some v => (Return v, w)
    | None => (Raise (no_attribute "Event" name), w)
    end.

(** The loop stored in an attribute, for a method call on it. *)
Definition getattr_loop (ev : nat) (name : string) : M St Loop :=
  v ← getattr ev name;
  match v with
  | VLoop l => mret l
  | _ => raise (Exn AttributeError "object is not an event loop")
  end.

(** [ev.wait()] of [threading.Event], without timeout: it returns once the
    flag is up, and nothing else of this thread can raise it. *)
Definition threading_wait (ev : nat) : M St bool :=
  λ _ w,
    if ev_flag (event_obj ev w) then (Return true, w) else (Blocked, w).

(** [Thread(target=..., args=...).start()] followed by the caller blocking:
    the target runs to its end on a new thread; what it returns or raises
    stays in that thread. *)
Definition Thread_start (target : M St unit) : M St unit :=
  λ _ w,
    let th := w_next_thread w in
    (Return (),
     (target th (record (EvThread th) (with_next_thread (S th) w))).2).

(** [Task.current_task(loop=loop)] *)
Definition Task_current_task (l : Loop) : M St (option nat) :=
  λ _ w, (Return (w_current w !! loop_id l), w).

(** [Task.all_tasks(loop=loop)]: iterating the task set fails when the set
    changes under it; the failures still to come are [w_faults]. *)
Definition Task_all_tasks (l : Loop) : M St (list nat) :=
  λ _ w,
    match w_faults w with
    | e :: rest => (Raise e, with_faults rest w)
    | [] => (Return (default [] (w_tasks w !! loop_id l)), w)
    end.

(** [task.cancel()] *)
Definition task_cancel (task : nat) : M St unit := emit (EvTaskCancel task).

Fixpoint for_each {A} (f : A → M St unit) (xs : list A) : M St unit :=
  match xs with
  | [] => mret ()
  | x :: rest => f x;; for_each f rest
  end.

(** Calling a coroutine function gives the coroutine object or raises. *)
Definition call (f : pyfunc) (args : list value) (kw : kwargs)
  : M St coroutine :=
  match f args kw with
  | inl e => raise e
  | inr c => mret c
  end.

(** [await coro] inside a coroutine. *)
Definition await (c : coroutine) : M St value := λ _ w, (c, w).

(** ** [new_file_event_loop] *)

Definition new_file_event_loop : M St Loop := asyncio_new_event_loop.

(** ** [ensure_event_loop] *)

Definition no_current_loop : string := "There is no current event loop".

Definition ensure_event_loop : M St Loop :=
  try_except asyncio_get_event_loop RuntimeError
    (λ e,
       if contains no_current_loop (exn_str e) then
         loop ← new_file_event_loop;
         asyncio_set_event_loop loop;;
         mret loop
       else raise e).

(** ** [cancellable] *)

(** The retry loop of [_cancel]: enumerate the tasks of the loop and keep
    those that are not the current task; on a [RuntimeError] log it and
    enumerate again. *)
Fixpoint _cancel_sweep (fuel : nat) (loop : Loop) (current_task : option nat)
  : M St (list nat) :=
  match fuel with
  | 0 => λ _ w, (OutOfFuel, w)
  | S fuel' =>
      try_except
        (tasks_to_cancel ← Task_all_tasks loop;
         mret (filter (λ task, Some task ≠ current_task) tasks_to_cancel))
        RuntimeError
        (λ exception,
           _L_debug ("ERROR: " ++ exn_str exception);;
           _cancel_sweep fuel' loop current_task)
  end.

Definition _cancel (fuel : nat) : M St unit :=
  loop ← ensure_event_loop;
  current_task ← Task_current_task loop;
  tasks ← _cancel_sweep fuel loop current_task;
  for_each task_cancel tasks.

(** The wrapper [cancellable] returns: the callable and its two
    attributes. *)
Record Cancellable : Type := MkCancellable {
  _wrapped : list value → kwargs → M St value;
  started : nat;
  cancel : M St unit
}.

(** The body of [_wrapped], a closure over the event [started] and the
    target [f]. *)
Definition cancellable_wrapped (started : nat) (f : pyfunc)
    (args : list value) (kw : kwargs) : M St value :=
  Event_clear started;;
  loop ← ensure_event_loop;
  setattr started "loop" (VLoop loop);;
  Event_set started;;
  loop' ← getattr_loop started "loop";
  c ← call f args kw;
  loop_run_until_complete loop' (Coro c).

(** The body of the [cancel] lambda, a closure over [started]. *)
Definition cancellable_cancel (started : nat) : M St unit :=
  loop ← getattr_loop started "loop";
  loop_call_soon_threadsafe loop CbCancel.

Definition cancellable (f : pyfunc) : M St Cancellable :=
  started ← Event_new;
  mret
    {| _wrapped := cancellable_wrapped started f;
       started := started;
       cancel := cancellable_cancel started |}.

(** ** The loop at work: running what [call_soon_threadsafe] queued *)

(** One callback; [_cancel] gets a retry for every failure still to come
    and one more. *)
Definition run_callback (cb : callback) : M St unit :=
  match cb with
  | CbEventSet ev => Event_set ev
  | CbCancel => λ t w, _cancel (S (length (w_faults w))) t w
  end.

(** The loop runs the handles in turn; what one raises goes to the loop's
    exception handler, not to the next handle. *)
Fixpoint run_handles (cbs : list callback) : M St unit :=
  match cbs with
  | [] => mret ()
  | cb :: rest => λ t w, run_handles rest t (run_callback cb t w).2
  end.

(** One iteration of the loop: the ready queue is emptied and run. *)
Definition loop_run_once (l : Loop) : M St unit :=
  λ t w,
    run_handles (default [] (w_ready w !! loop_id l)) t
      (with_ready (delete (loop_id l) (w_ready w)) w).

(** [await ev.wait()] of [asyncio.Event]: with the flag up it returns at
    once; otherwise the coroutine is suspended, the loop running in this
    thread runs its ready queue, and the coroutine resumes if that raised
    the flag. *)
Definition asyncio_Event_wait (ev : nat) : M St bool :=
  λ t w,
    if ev_flag (event_obj ev w) then (Return true, w)
    else
      match w_running w !! t with
      | Some l =>
          let w' := (loop_run_once l t w).2 in
          if ev_flag (event_obj ev w') then (Return true, w')
          else (Blocked, w')
      | None => (Blocked, w)
      end.

(** ** [sync] *)

(** The legacy asynchronous wrapper handed to [sync]: a decorator that
    makes a function run somewhere else. *)
Definition Executor : Type :=
  (list value → M St value) → list value → M St value.

(** The body of the inner [_wrapped], a closure over [loop], [done] and
    the target [f]: it awaits the target, stores the result on the event and
    schedules the raising of the flag. *)
Definition sync_wrapped (loop : Loop) (done : nat) (f : pyfunc)
    (args : list value) : M St value :=
  r ← (c ← call f args ∅; await c);
  setattr done "result" r;;
  loop_call_soon_threadsafe loop (CbEventSet done);;
  mret (VBool false).

(** The body of [_synced]: it awaits [_wrapped], then the flag, and
    returns the stored result. *)
Definition sync_synced (loop : Loop) (done : nat) (f : pyfunc)
    (args : list value) : M St value :=
  sync_wrapped loop done f args;;
  asyncio_Event_wait done;;
  getattr done "result".

(** The decorator [sync] returns.  The loop and the event are made once,
    when the target is decorated. *)
Definition _sync (f : pyfunc) : M St (list value → M St value) :=
  loop ← ensure_event_loop;
  done ← Event_new;
  mret (sync_synced loop done f).

Definition sync (async_wrapper : Executor)
  : pyfunc → M St (list value → M St value) :=
  _sync.

(** ** [with_loop] *)

(** [raise v] *)
Definition raise_value {A} (v : value) : M St A :=
  match v with
  | VExc e => raise e
  | _ => raise (Exn TypeError "exceptions must derive from BaseException")
  end.

(** The target of the background thread. *)
Definition _run (finished : nat) (generator : coroutine) : M St unit :=
  loop ← ensure_event_loop;
  try_except_else_finally
    (fut ← asyncio_ensure_future generator;
     loop_run_until_complete loop fut)
    Exception
    (λ e,
       setattr finished "result" VNone;;
       setattr finished "error" (VExc e))
    (λ result,
       setattr finished "result" result;;
       setattr finished "error" VNone)
    (loop_close loop;;
     _L_debug "closed event loop");;
  Event_set finished.

Definition with_loop (func : pyfunc) (args : list value) (kw : kwargs)
  : M St value :=
  loop ← ensure_event_loop;
  running ← loop_is_running loop;
  thread_required ←
    (if running : bool then
       _L_debug "Event loop is already running.";;
       mret true
     else
       system ← platform_system;
       proactor ← asyncio_ProactorEventLoop;
       if bool_decide (system = "Windows")
          && negb (bool_decide (loop_type loop = proactor))
       then
         _L_debug ("`ProactorEventLoop` required, not `"
                   ++ class_repr (loop_type loop)
                   ++ "` loop in background thread.");;
         mret true
       else mret false);
  if thread_required : bool then
    _L_debug "Execute new loop in background thread.";;
    finished ← Event_new;
    generator ← call func args kw;
    Thread_start (_run finished generator);;
    threading_wait finished;;
    error ← getattr finished "error";
    if bool_decide (error ≠ VNone) then raise_value error
    else getattr finished "result"
  else
    _L_debug "Execute in exiting event loop in main thread";;
    c ← call func [] kw;
    loop_run_until_complete loop (Coro c).

End Model.

(** ** CPython's default event-loop policy *)

(** [BaseDefaultEventLoopPolicy]: a loop per thread in thread-local
    storage, whether [set_event_loop] was called there, the class
    [new_event_loop] builds, and the next loop identity. *)
Record DefaultPolicy : Type := MkDefault {
  dp_loop : gmap nat Loop;
  dp_set_called : gset nat;
  dp_loop_factory : loop_class;
  dp_next : nat
}.

Definition MainThread : nat := 0.

Definition dp_new_event_loop (s : DefaultPolicy) : Loop * DefaultPolicy :=
  (MkLoop (dp_next s) (dp_loop_factory s),
   MkDefault (dp_loop s) (dp_set_called s) (dp_loop_factory s)
     (S (dp_next s))).

Definition dp_set_event_loop (t : nat) (l : Loop) (s : DefaultPolicy)
  : DefaultPolicy :=
  MkDefault (<[t := l]> (dp_loop s)) ({[t]} ∪ dp_set_called s)
    (dp_loop_factory s) (dp_next s).

Definition thread_name (t : nat) : string :=
  if bool_decide (t = MainThread) then "MainThread" else "Thread-" ++ pretty t.

(** In the main thread a first loop is made on demand; any other thread
    without a loop gets the [RuntimeError]. *)
Definition dp_get_event_loop (t : nat) (s : DefaultPolicy)
  : (exn + Loop) * DefaultPolicy :=
  let s1 :=
    if bool_decide (dp_loop s !! t = None)
       && bool_decide (t ∉ dp_set_called s)
       && bool_decide (t = MainThread)
    then let '(l, s') := dp_new_event_loop s in dp_set_event_loop t l s'
    else s in
  match dp_loop s1 !! t with
  | Some l => (inr l, s1)
  | None =>
      (inl (Exn RuntimeError
              ("There is no current event loop in thread '"
               ++ thread_name t ++ "'.")),
       s1)
  end.

Definition default_policy : EventLoopPolicy DefaultPolicy :=
  MkPolicy DefaultPolicy dp_get_event_loop dp_set_event_loop
    dp_new_event_loop.

(** Loop identities are handed out in order: every loop bound to a thread
    was made before the next one to be made. *)
Definition dp_fresh (s : DefaultPolicy) : Prop :=
  ∀ t l, dp_loop s !! t = Some l → loop_id l < dp_next s.

(** ** Scenarios *)

(** [async def foo(a_): return a_], the identity coroutine of the tests. *)
Definition foo : pyfunc :=
  λ args kw,
    match args with
    | [] =>
        match kw !! "a_" with
        | Some x =>
            if bool_decide (size kw = 1) then inr (Return x)
            else inl (Exn TypeError "foo() got an unexpected keyword argument")
        | None =>
            if bool_decide (size kw = 0) then
              inl (Exn TypeError
                     "foo() missing 1 required positional argument: 'a_'")
            else inl (Exn TypeError "foo() got an unexpected keyword argument")
        end
    | [x] =>
        if bool_decide (size kw = 0) then inr (Return x)
        else inl (Exn TypeError "foo() got multiple values or an unexpected keyword argument")
    | _ =>
        inl (Exn TypeError "foo() takes 1 positional argument but more were given")
    end.

(** [async def boom(x): raise ValueError(x)] for a string [x]. *)
Definition boom : pyfunc :=
  λ args kw,
    match args with
    | [VStr x] =>
        if bool_decide (size kw = 0) then inr (Raise (Exn ValueError x))
        else inl (Exn TypeError "boom() got an unexpected keyword argument")
    | _ =>
        inl (Exn TypeError
               "boom() missing 1 required positional argument: 'x'")
    end.

(** [async def leave(): raise SystemExit(0)] *)
Definition leave : pyfunc :=
  λ args kw,
    match args with
    | [] =>
        if bool_decide (size kw = 0) then inr (Raise (Exn SystemExit "0"))
        else inl (Exn TypeError "leave() got an unexpected keyword argument")
    | _ => inl (Exn TypeError "leave() takes 0 positional arguments")
    end.

(** A process at start-up: no loop made yet, no thread but the main one. *)
Definition boot_with {St} (s : St) (system : string) : World St :=
  MkWorld s system ∅ ∅ ∅ ∅ ∅ [] ∅ 0 1 [].

Definition boot (system : string) (factory : loop_class)
  : World DefaultPolicy :=
  boot_with (MkDefault ∅ ∅ factory 0) system.

(** The same world seen from a coroutine that loop [l] runs in thread [t]. *)
Definition inside {St} (t : nat) (l : Loop) (w : World St) : World St :=
  MkWorld (w_local w) (w_system w) (<[t := l]> (w_running w)) (w_closed w)
    (w_ready w) (w_tasks w) (w_current w) (w_faults w) (w_events w)
    (w_next_event w) (w_next_thread w) (w_trace w).

(** A policy that is out of order: it answers every [get_event_loop] with a
    [RuntimeError] of its own. *)
Definition broken_policy : EventLoopPolicy unit :=
  MkPolicy unit
    (λ _ s, (inl (Exn RuntimeError "the policy has been shut down"), s))
    (λ _ _ s, s)
    (λ s, (MkLoop 0 SelectorEventLoop, s)).

(** The main thread of a started process has made its loop and runs it;
    the call under study comes from a coroutine of that loop. *)
Definition serving (system : string) (factory : loop_class)
  : World DefaultPolicy :=
  inside MainThread (MkLoop 0 factory)
    (ensure_event_loop default_policy MainThread (boot system factory)).2.

(** An executor that records that it was asked to schedule a call, and
    then makes the call in place. *)
Definition recording_executor {St} : @Executor St :=
  λ step args, _L_debug "executor: scheduling the call";; step args.

(** The loop of the main thread at work on three tasks, task 2 being the
    one that is stepped, while the task set is being changed by other
    threads: the next two enumerations fail. *)
Definition sweeping : World DefaultPolicy :=
  MkWorld (w_local (serving "Linux" SelectorEventLoop)) "Linux"
    {[MainThread := MkLoop 0 SelectorEventLoop]} ∅ ∅
    {[0 := [1; 2; 3]]} {[0 := 2]}
    [Exn RuntimeError "Set changed size during iteration";
     Exn RuntimeError "Set changed size during iteration"]
    ∅ 0 1 [].

(** A call that returns and leaves the world as it found it. *)
Definition returns_quietly {St A} (m : M St A) (t : nat) (w : World St)
  : Prop :=
  ∃ a, m t w = (Return a, w).

(** A policy that serves the main thread only: it keeps one loop for it
    and answers every other thread with a [RuntimeError] of its own. *)
Definition main_only_policy : EventLoopPolicy unit :=
  MkPolicy unit
    (λ t s,
       if bool_decide (t = MainThread) then (inr (MkLoop 0 SelectorEventLoop), s)
       else (inl (Exn RuntimeError "event loops are for the main thread"), s))
    (λ _ _ s, s)
    (λ s, (MkLoop 1 SelectorEventLoop, s)).

(** ** The package's tests *)

Section Tests.
Context {St : Type} (P : EventLoopPolicy St).

(** [loop.run_until_complete(v)] for an object [v] that is no future,
    coroutine or awaitable: after the checks on the loop,
    [asyncio.ensure_future] refuses it. *)
Definition loop_run_until_complete_value (l : Loop) (v : value)
  : M St value :=
  λ t w,
    if is_closed l w then
      (Raise (Exn RuntimeError "Event loop is closed"), w)
    else if is_running l w then
      (Raise (Exn RuntimeError "This event loop is already running"), w)
    else if bool_decide (is_Some (w_running w !! t)) then
      (Raise (Exn RuntimeError
                "Cannot run the event loop while another loop is running"), w)
    else
      (Raise (Exn TypeError
                "An asyncio.Future, a coroutine or an awaitable is required"),
       w).

(** [test_with_loop] of [tests/test_with_loop.py] up to the assignment of
    [result]: [foo] is wrapped by [with_loop], the loop of the thread is
    fetched, and [foo(a)] is handed to [loop.run_until_complete]. *)
Definition test_with_loop_result : M St value :=
  loop ← asyncio_get_event_loop P;
  v ← with_loop P foo [VStr "hello"] ∅;
  loop_run_until_complete_value loop v.

End Tests.

(** ** Reading the trace *)

(** The effects that took the world from [w] to [w'], oldest first. *)
Definition since {St} (w w' : World St) : list event :=
  rev (take (length (w_trace w') - length (w_trace w)) (w_trace w')).

Arguments since : simpl never.

(** The signal (an [Event] object) an effect is about. *)
Definition signal_of (e : event) : option nat :=
  match e with
  | EvNew ev | EvClear ev | EvSet ev | EvSetAttr ev _ _ => Some ev
  | _ => None
  end.

Definition signals (tr : list event) : list nat := omap signal_of tr.

Definition is_new (ev : nat) (e : event) : bool :=
  match e with EvNew r => bool_decide (r = ev) | _ => false end.

Definition is_clear (ev : nat) (e : event) : bool :=
  match e with EvClear r => bool_decide (r = ev) | _ => false end.

Definition is_set (ev : nat) (e : event) : bool :=
  match e with EvSet r => bool_decide (r = ev) | _ => false end.

Definition is_setattr (ev : nat) (name : string) (e : event) : bool :=
  match e with
  | EvSetAttr r n _ => bool_decide (r = ev) && bool_decide (n = name)
  | _ => false
  end.

Definition is_run (e : event) : bool :=
  match e with EvRun _ => true | _ => false end.

(** An effect that concerns no signal but [ev]. *)
Definition about (ev : nat) (e : event) : bool :=
  match signal_of e with
  | Some r => bool_decide (r = ev)
  | None => true
  end.

(** An effect that creates no signal. *)
Definition not_new (e : event) : bool :=
  match e with EvNew _ => false | _ => true end.

(** An effect that uses the signal [ev]: it clears or raises its flag or
    writes one of its attributes. *)
Definition uses (ev : nat) (e : event) : bool :=
  match e with
  | EvClear r | EvSet r | EvSetAttr r _ _ => bool_decide (r = ev)
  | _ => false
  end.

(** An effect that concerns no signal at all. *)
Definition quiet (e : event) : bool :=
  match signal_of e with
  | Some _ => false
  | None => true
  end.

(** In [tr], every effect that satisfies [q] comes after one that
    satisfies [p]. *)
Definition precedes (p q : event → bool) (tr : list event) : Prop :=
  ∀ pre e post,
    tr = (pre ++ e :: post)%list → q e = true → ∃ e', e' ∈ pre ∧ p e' = true.

(** The same, decided in one pass; [seen] tells whether a [p] was met. *)
Fixpoint precedesb (p q : event → bool) (seen : bool) (tr : list event)
  : bool :=
  match tr with
  | [] => true
  | e :: rest => (negb (q e) || seen) && precedesb p q (seen || p e) rest
  end.

(** An effect that neither creates a signal nor lowers a flag. *)
Definition keeps (e : event) : bool :=
  match e with
  | EvNew _ | EvClear _ => false
  | _ => true
  end.

(** Every signal used among the effects [tr] of a call was created
    earlier among them. *)
Definition created_in_call (tr : list event) : Prop :=
  ∀ ev, precedes (is_new ev) (uses ev) tr.

(** What the background thread of [with_loop] may add to the trace, for
    the completion signal [fin]: nothing about another signal, no new
    signal, and no raising of the flag before both attributes were
    written. *)
Definition run_ok (fin : nat) (tr : list event) : Prop :=
  forallb (about fin) tr = true
  ∧ forallb not_new tr = true
  ∧ precedesb (is_setattr fin "result") (is_set fin) false tr = true
  ∧ precedesb (is_setattr fin "error") (is_set fin) false tr = true.

(** What a call of the wrapper of [with_loop] may add: effects that
    concern no signal, then possibly the creation of one signal followed by
    what the background thread does with it. *)
Fixpoint isolated_ok (tr : list event) : Prop :=
  match tr with
  | [] => True
  | EvNew fin :: rest => run_ok fin rest
  | e :: rest => quiet e = true ∧ isolated_ok rest
  end.

(** What a call of a function bridged by [sync] may add, for its signal
    [done], target [f] and arguments [args]: it creates no signal and lowers
    no flag, and when the target returns [r] its first effect is to store
    [r] on [done]. *)
Definition synced_ok (done : nat) (f : pyfunc) (args : list value)
    (tr : list event) : Prop :=
  forallb keeps tr = true
  ∧ ∀ r, await_call f args ∅ = Return r →
         head tr = Some (EvSetAttr done "result" r).

(** What a call of the wrapper of [cancellable] may add, for its signal
    [st]: it starts by clearing the flag, creates nothing, touches no other
    signal, raises the flag only after the loop was attached, and drives the
    coroutine only after the flag was raised. *)
Definition wrapped_ok (st : nat) (tr : list event) : Prop :=
  head tr = Some (EvClear st)
  ∧ forallb (about st) tr = true
  ∧ forallb not_new tr = true
  ∧ precedesb (is_setattr st "loop") (is_set st) false tr = true
  ∧ precedesb (is_set st) is_run false tr = true.

(** ** A small logic for what a call adds to the trace *)

(** [adds m Φ]: whatever the thread and the world, the call [m] only
    extends the trace, and its result [r] and the effects [tr] it adds
    (oldest first) satisfy [Φ r tr]. *)
Definition adds {St A} (m : M St A) (Φ : result A → list event → Prop)
  : Prop :=
  ∀ t w,
    ∃ tr, w_trace (m t w).2 = (rev tr ++ w_trace w)%list ∧ Φ (m t w).1 tr.

(** The postcondition of a sequence. *)
Definition then_ {A B} (Φ : result A → list event → Prop)
    (Ψ : A → result B → list event → Prop) (r : result B) (tr : list event)
  : Prop :=
  ∃ r1 tr1,
    Φ r1 tr1 ∧
    match r1 with
    | Return a => ∃ tr2, Ψ a r tr2 ∧ tr = (tr1 ++ tr2)%list
    | Raise e => r = Raise e ∧ tr = tr1
    | Blocked => r = Blocked ∧ tr = tr1
    | OutOfFuel => r = OutOfFuel ∧ tr = tr1
    end.

(** The postcondition of [try ... except C as e: ...]. *)
Definition caught {A} (C : exc_class) (Φ : result A → list event → Prop)
    (Ψ : exn → result A → list event → Prop) (r : result A)
    (tr : list event) : Prop :=
  ∃ r1 tr1,
    Φ r1 tr1 ∧
    match r1 with
    | Raise e =>
        if isinstance e C then ∃ tr2, Ψ e r tr2 ∧ tr = (tr1 ++ tr2)%list
        else r = Raise e ∧ tr = tr1
    | _ => r = r1 ∧ tr = tr1
    end.

(** What [finally] makes of the outcome [r2] of the clauses before it. *)
Definition finally_ (Φf : result unit → list event → Prop)
    (r2 : result unit) (tr12 : list event) (r : result unit)
    (tr : list event) : Prop :=
  match r2 with
  | Return _ => ∃ tr3, Φf r tr3 ∧ tr = (tr12 ++ tr3)%list
  | Raise e =>
      ∃ r3 tr3,
        Φf r3 tr3 ∧ tr = (tr12 ++ tr3)%list ∧
        r = match r3 with Return _ => Raise e | _ => r3 end
  | Blocked => r = Blocked ∧ tr = tr12
  | OutOfFuel => r = OutOfFuel ∧ tr = tr12
  end.

(** The postcondition of [try ... except ... else ... finally ...]. *)
Definition guarded {A} (C : exc_class) (Φ : result A → list event → Prop)
    (Ψh : exn → result unit → list event → Prop)
    (Ψe : A → result unit → list event → Prop)
    (Φf : result unit → list event → Prop) (r : result unit)
    (tr : list event) : Prop :=
  ∃ r1 tr1,
    Φ r1 tr1 ∧
    match r1 with
    | Return a =>
        ∃ r2 tr2, Ψe a r2 tr2 ∧ finally_ Φf r2 (tr1 ++ tr2)%list r tr
    | Raise e =>
        if isinstance e C then
          ∃ r2 tr2, Ψh e r2 tr2 ∧ finally_ Φf r2 (tr1 ++ tr2)%list r tr
        else finally_ Φf (Raise e) tr1 r tr
    | Blocked => r = Blocked ∧ tr = tr1
    | OutOfFuel => r = OutOfFuel ∧ tr = tr1
    end.

(** [each p m]: every effect the call [m] adds satisfies [p]. *)
Definition each {St A} (p : event → bool) (m : M St A) : Prop :=
  adds m (λ _ tr, forallb p tr = true).

(** What the retry loop of [_cancel] logs for a failed enumeration. *)
Definition retry_log (e : exn) : event := EvLog ("ERROR: " ++ exn_str e).

(** What the background thread leaves on the completion signal. *)
Definition completion (c : coroutine) (before : EventObj) : EventObj :=
  match c with
  | Return v =>
      MkEvent true (<["error" := VNone]> (<["result" := v]> (ev_dict before)))
  | Raise e =>
      if isinstance e Exception then
        MkEvent true
          (<["error" := VExc e]> (<["result" := VNone]> (ev_dict before)))
      else before
  | _ => before
  end.

(** What the background thread of [with_loop] does, on the loop [loop]
    and the completion signal [fin], for a coroutine that ends as [c]. *)
Definition run_effects (fin : nat) (loop : Loop) (c : coroutine)
  : list event :=
  EvRun loop ::
  match c with
  | Return v =>
      [EvSetAttr fin "result" v; EvSetAttr fin "error" VNone; EvClose loop;
       EvLog "closed event loop"; EvSet fin]
  | Raise e =>
      if isinstance e Exception then
        [EvSetAttr fin "result" VNone; EvSetAttr fin "error" (VExc e);
         EvClose loop; EvLog "closed event loop"; EvSet fin]
      else [EvClose loop; EvLog "closed event loop"]
  | _ => []
  end.

(** * Properties *)

(** ** [ensure_event_loop]: binding, idempotence, the error it recovers *)

Lemma default_policy_laws : PolicyLaws default_policy.
Proof.
  split.
  - intros t s s' l. cbn. unfold dp_get_event_loop.
    destruct (bool_decide (dp_loop s !! t = None)
              && bool_decide (t ∉ dp_set_called s)
              && bool_decide (t = MainThread)) eqn:Hc.
    + cbn. rewrite lookup_insert_eq. intros [= <- <-]. cbn.
      rewrite lookup_insert_eq. cbn. by rewrite lookup_insert_eq.
    + destruct (dp_loop s !! t) as [l0|] eqn:Hl; [|done].
      intros [= <- <-]. rewrite Hl. rewrite Hc. by rewrite Hl.
  - intros t l s. cbn. unfold dp_get_event_loop. cbn.
    rewrite lookup_insert_eq. cbn. by rewrite lookup_insert_eq.
Qed.

Section EnsureEventLoop.
Context {St : Type} (P : EventLoopPolicy St).

Lemma ensure_event_loop_running t w l :
  w_running w !! t = Some l →
  ensure_event_loop P t w = (Return l, w).
Proof.
  intros H. unfold ensure_event_loop, try_except, asyncio_get_event_loop.
  by rewrite H.
Qed.

Lemma ensure_event_loop_bound t w l s :
  w_running w !! t = None →
  pol_get_event_loop P t (w_local w) = (inr l, s) →
  ensure_event_loop P t w = (Return l, with_local s w).
Proof.
  intros Hr Hg. unfold ensure_event_loop, try_except, asyncio_get_event_loop.
  by rewrite Hr, Hg.
Qed.

Lemma ensure_event_loop_get_raises t w e w1 :
  asyncio_get_event_loop P t w = (Raise e, w1) →
  ensure_event_loop P t w =
    if isinstance e RuntimeError && contains no_current_loop (exn_str e)
    then
      (Return (pol_new_event_loop P (w_local w1)).1,
       with_local
         (pol_set_event_loop P t (pol_new_event_loop P (w_local w1)).1
            (pol_new_event_loop P (w_local w1)).2)
         w1)
    else (Raise e, w1).
Proof.
  intros Hg. unfold ensure_event_loop, try_except. rewrite Hg.
  destruct (isinstance e RuntimeError); [|done]. cbn.
  destruct (contains no_current_loop (exn_str e)); [|done].
  unfold mbind, M_bind, bind, new_file_event_loop, asyncio_new_event_loop,
    asyncio_set_event_loop.
  destruct (pol_new_event_loop P (w_local w1)) as [l s]. done.
Qed.

End EnsureEventLoop.

(** C5: on one thread, a second call of [ensure_event_loop] returns the
    very loop the first call returned and changes nothing; when the thread
    had no loop (asyncio reports "There is no current event loop"), the
    first call returns the loop it has just made with [new_event_loop] and
    bound, and that loop is what [get_event_loop] and every later call give. *)
Theorem ensure_event_loop_idempotent {St : Type} (P : EventLoopPolicy St)
    (HP : PolicyLaws P) (t : nat) (w : World St) :
  (∀ l w1,
     ensure_event_loop P t w = (Return l, w1) →
     ensure_event_loop P t w1 = (Return l, w1))
  ∧ (∀ e w0,
       asyncio_get_event_loop P t w = (Raise e, w0) →
       isinstance e RuntimeError = true →
       contains no_current_loop (exn_str e) = true →
       ∃ l w1,
         ensure_event_loop P t w = (Return l, w1)
         ∧ l = (pol_new_event_loop P (w_local w0)).1
         ∧ asyncio_get_event_loop P t w1 = (Return l, w1)
         ∧ ensure_event_loop P t w1 = (Return l, w1)).
Proof.
  assert (Hnew : ∀ w0 l s,
            w_running w0 !! t = None →
            ensure_event_loop P t
              (with_local (pol_set_event_loop P t l s) w0)
            = (Return l, with_local (pol_set_event_loop P t l s) w0)
            ∧ asyncio_get_event_loop P t
                (with_local (pol_set_event_loop P t l s) w0)
              = (Return l, with_local (pol_set_event_loop P t l s) w0)).
  { intros w0 l s Hr. split.
    - erewrite ensure_event_loop_bound; [done|done|]. apply (get_bound P HP).
    - unfold asyncio_get_event_loop. cbn. rewrite Hr.
      by rewrite (get_bound P HP). }
  assert (Hraise : ∀ e w0,
            asyncio_get_event_loop P t w = (Raise e, w0) →
            w_running w0 !! t = None).
  { intros e w0. unfold asyncio_get_event_loop.
    destruct (w_running w !! t) eqn:Hr; [done|].
    destruct (pol_get_event_loop P t (w_local w)) as [[e'|l'] s]; [|done].
    by intros [= _ <-]. }
  split.
  - intros l w1 H.
    destruct (w_running w !! t) as [l0|] eqn:Hr.
    { rewrite (ensure_event_loop_running P t w l0 Hr) in H.
      injection H as <- <-. by apply ensure_event_loop_running. }
    destruct (pol_get_event_loop P t (w_local w)) as [[e|l0] s] eqn:Hg.
    + assert (Hget : asyncio_get_event_loop P t w = (Raise e, with_local s w)).
      { unfold asyncio_get_event_loop. by rewrite Hr, Hg. }
      rewrite (ensure_event_loop_get_raises P t w e _ Hget) in H.
      destruct (isinstance e RuntimeError && contains no_current_loop (exn_str e));
        [|done].
      injection H as <- <-. by apply Hnew.
    + rewrite (ensure_event_loop_bound P t w l0 s Hr Hg) in H.
      injection H as <- <-.
      by rewrite (ensure_event_loop_bound P t (with_local s w) l0 s Hr
                    (get_stable P HP t _ _ _ Hg)).
  - intros e w0 Hget He Hc.
    rewrite (ensure_event_loop_get_raises P t w e w0 Hget), He, Hc. cbn.
    eexists _, _. split; [done|]. split; [done|].
    destruct (Hnew w0 (pol_new_event_loop P (w_local w0)).1
                (pol_new_event_loop P (w_local w0)).2 (Hraise e w0 Hget))
      as [H1 H2].
    by split.
Qed.

(** The witness: a worker thread of a fresh process, under CPython's default
    policy. *)
Lemma ensure_event_loop_idempotent_witness :
  ensure_event_loop default_policy 1
    (ensure_event_loop default_policy 1 (boot "Linux" SelectorEventLoop)).2
  = (Return (MkLoop 0 SelectorEventLoop),
     (ensure_event_loop default_policy 1 (boot "Linux" SelectorEventLoop)).2).
Proof.
  apply (proj1 (ensure_event_loop_idempotent default_policy
                  default_policy_laws 1 (boot "Linux" SelectorEventLoop))).
  vm_compute. reflexivity.
Defined.

(** C10: when [asyncio.get_event_loop()] raises, [ensure_event_loop]
    makes and binds a new loop only for a [RuntimeError] whose text contains
    "There is no current event loop"; an exception with another text, or of
    another class, reaches the caller as it is, and the world is the one
    [get_event_loop] left: no loop was made or bound. *)
Theorem ensure_event_loop_recovers_only_no_loop {St : Type}
    (P : EventLoopPolicy St) (t : nat) (w : World St) (e : exn)
    (w0 : World St) :
  asyncio_get_event_loop P t w = (Raise e, w0) →
  (isinstance e RuntimeError = true →
   contains no_current_loop (exn_str e) = true →
   ∃ l s,
     pol_new_event_loop P (w_local w0) = (l, s)
     ∧ ensure_event_loop P t w
       = (Return l, with_local (pol_set_event_loop P t l s) w0))
  ∧ (contains no_current_loop (exn_str e) = false →
     ensure_event_loop P t w = (Raise e, w0))
  ∧ (isinstance e RuntimeError = false →
     ensure_event_loop P t w = (Raise e, w0)).
Proof.
  intros Hget. rewrite (ensure_event_loop_get_raises P t w e w0 Hget).
  split; [|split].
  - intros -> ->. cbn.
    destruct (pol_new_event_loop P (w_local w0)) as [l s] eqn:Hn.
    by exists l, s.
  - intros ->. by rewrite andb_false_r.
  - by intros ->.
Qed.

(** The witness: the out-of-order policy, whose [RuntimeError] has another
    text. *)
Lemma ensure_event_loop_recovers_only_no_loop_witness :
  ensure_event_loop broken_policy 1 (boot_with () "Linux")
  = (Raise (Exn RuntimeError "the policy has been shut down"),
     boot_with () "Linux").
Proof.
  apply (proj1 (proj2 (ensure_event_loop_recovers_only_no_loop broken_policy 1
           (boot_with () "Linux")
           (Exn RuntimeError "the policy has been shut down")
           (boot_with () "Linux") eq_refl))).
  reflexivity.
Defined.

(** The other side of C10 on the default policy: the worker thread's
    "no current event loop" is the one error that is recovered. *)
Example ensure_event_loop_recovers_worker :
  asyncio_get_event_loop default_policy 1 (boot "Linux" SelectorEventLoop)
  = (Raise (Exn RuntimeError
              "There is no current event loop in thread 'Thread-1'."),
     boot "Linux" SelectorEventLoop)
  ∧ (ensure_event_loop default_policy 1 (boot "Linux" SelectorEventLoop)).1
    = Return (MkLoop 0 SelectorEventLoop).
Proof. split; vm_compute; reflexivity. Qed.

(** C7: [new_file_event_loop] hands out whatever class the policy builds
    by default, whatever the platform: on Windows under a policy whose default
    is the selector loop, the loop it returns is a selector loop, not a
    proactor loop. *)
Theorem new_file_event_loop_is_policy_default :
  (∀ system factory,
     (new_file_event_loop default_policy MainThread (boot system factory)).1
     = Return (MkLoop 0 factory))
  ∧ (new_file_event_loop default_policy MainThread
       (boot "Windows" SelectorEventLoop)).1
    = Return (MkLoop 0 SelectorEventLoop).
Proof. split; [intros system factory|]; reflexivity. Qed.

(** ** Lemmas on traces *)

Lemma since_app {St} (w w' : World St) (new : list event) :
  w_trace w' = (new ++ w_trace w)%list → since w w' = rev new.
Proof.
  intros H. unfold since. rewrite H, length_app.
  replace (length new + length (w_trace w) - length (w_trace w))
    with (length new) by lia.
  by rewrite take_app_length.
Qed.

Lemma trace_nil (tr : list event) : tr = ([] ++ tr)%list.
Proof. done. Qed.

Lemma trace_cons (e : event) (tr' new tr : list event) :
  tr' = (new ++ tr)%list → e :: tr' = ((e :: new) ++ tr)%list.
Proof. by intros ->. Qed.

Lemma precedesb_sound_gen (p q : event → bool) (tr : list event) :
  ∀ seen,
    precedesb p q seen tr = true →
    ∀ pre e post,
      tr = (pre ++ e :: post)%list → q e = true →
      seen = true ∨ ∃ e', e' ∈ pre ∧ p e' = true.
Proof.
  induction tr as [|x tr IH]; intros seen Hb pre e post Heq Hq.
  - by destruct pre.
  - cbn in Hb. apply andb_prop in Hb as [Hx Hrest].
    destruct pre as [|y pre]; cbn in Heq; injection Heq as -> ->.
    + rewrite Hq in Hx. cbn in Hx. by left.
    + destruct (IH _ Hrest pre e post eq_refl Hq) as [Hs|(e' & Hin & Hp)].
      * apply orb_prop in Hs as [->|Hp]; [by left|].
        right. exists y. split; [apply list_elem_of_here|done].
      * right. exists e'. split; [by apply list_elem_of_further|done].
Qed.

Lemma precedesb_sound (p q : event → bool) (tr : list event) :
  precedesb p q false tr = true → precedes p q tr.
Proof.
  intros Hb pre e post Heq Hq.
  by destruct (precedesb_sound_gen p q tr false Hb pre e post Heq Hq).
Qed.

Lemma precedes_nil (p q : event → bool) : precedes p q [].
Proof. intros pre e post H. by destruct pre. Qed.

(** ** What the calls leave alone *)

Lemma with_local_id {St} (w : World St) : with_local (w_local w) w = w.
Proof. by destruct w. Qed.

Lemma asyncio_get_event_loop_local {St} (P : EventLoopPolicy St) t w :
  ∃ s, (asyncio_get_event_loop P t w).2 = with_local s w.
Proof.
  unfold asyncio_get_event_loop. destruct (w_running w !! t).
  - exists (w_local w). by rewrite with_local_id.
  - destruct (pol_get_event_loop P t (w_local w)) as [[e|l] s]; by exists s.
Qed.

Lemma ensure_event_loop_local {St} (P : EventLoopPolicy St) t w :
  ∃ s, (ensure_event_loop P t w).2 = with_local s w.
Proof.
  destruct (asyncio_get_event_loop_local P t w) as [s Hs].
  destruct (asyncio_get_event_loop P t w) as [r w1] eqn:Hg. cbn in Hs.
  subst w1. destruct r as [l|e| |].
  - exists s. unfold ensure_event_loop, try_except. by rewrite Hg.
  - rewrite (ensure_event_loop_get_raises P t w e _ Hg).
    destruct (isinstance e RuntimeError && contains no_current_loop (exn_str e));
      [|by exists s].
    by eexists.
  - exists s. unfold ensure_event_loop, try_except. by rewrite Hg.
  - exists s. unfold ensure_event_loop, try_except. by rewrite Hg.
Qed.

Lemma precedesb_seen (p q : event → bool) (tr : list event) :
  precedesb p q true tr = true.
Proof.
  induction tr as [|e tr IH]; [done|]. cbn. by rewrite orb_true_r, IH.
Qed.

Lemma precedesb_no_q (p q : event → bool) (tr : list event) (seen : bool) :
  forallb (λ e, negb (q e)) tr = true → precedesb p q seen tr = true.
Proof.
  revert seen. induction tr as [|e tr IH]; intros seen H; [done|].
  cbn in *. apply andb_prop in H as [He Htr]. by rewrite He, IH.
Qed.

Lemma forallb_impl (p q : event → bool) (tr : list event) :
  (∀ e, p e = true → q e = true) →
  forallb p tr = true → forallb q tr = true.
Proof.
  intros Hpq. induction tr as [|e tr IH]; [done|]. cbn.
  intros [He Htr]%andb_prop. by rewrite (Hpq e He), IH.
Qed.

Lemma forallb_Forall (p : event → bool) (tr : list event) :
  forallb p tr = true → Forall (λ e, p e = true) tr.
Proof.
  induction tr as [|e tr IH]; [by constructor|]. cbn.
  intros [He Htr]%andb_prop. constructor; auto.
Qed.

Lemma about_other (fin ev : nat) (e : event) :
  ev ≠ fin → about fin e = true →
  uses ev e = false ∧ is_set ev e = false.
Proof.
  intros Hne. destruct e; cbn; try done; case_bool_decide; subst;
    try done; intros _; by rewrite bool_decide_eq_false_2.
Qed.

Lemma quiet_inert (ev : nat) (name : string) (e : event) :
  quiet e = true →
  uses ev e = false ∧ is_set ev e = false ∧ is_new ev e = false
  ∧ is_setattr ev name e = false.
Proof. by destruct e. Qed.

(** In a trace of [with_loop], no flag goes up before the attribute
    [name] ("result" or "error") of the same signal was written. *)
Lemma isolated_payload_first (ev : nat) (name : string) (tr : list event) :
  name = "result" ∨ name = "error" →
  isolated_ok tr →
  precedesb (is_setattr ev name) (is_set ev) false tr = true.
Proof.
  intros Hname. induction tr as [|e tr IH]; [done|]. intros H.
  assert (Hnew : ∀ fin, e = EvNew fin → run_ok fin tr →
            precedesb (is_setattr ev name) (is_set ev) false (e :: tr) = true).
  { intros fin -> (Hab & _ & Hres & Herr). cbn.
    destruct (decide (ev = fin)) as [->|Hne].
    - by destruct Hname as [->| ->].
    - apply precedesb_no_q. revert Hab. apply forallb_impl. intros e He.
      by destruct (about_other fin ev e Hne He) as [_ ->]. }
  destruct e; cbn in H; try (by eapply Hnew);
    destruct H as [Hq Htr]; try done; cbn; by apply IH.
Qed.

(** In a trace of [with_loop], a signal is used only after it was
    created in that trace. *)
Lemma isolated_created_first (ev : nat) (tr : list event) :
  isolated_ok tr → precedesb (is_new ev) (uses ev) false tr = true.
Proof.
  induction tr as [|e tr IH]; [done|]. intros H.
  assert (Hnew : ∀ fin, e = EvNew fin → run_ok fin tr →
            precedesb (is_new ev) (uses ev) false (e :: tr) = true).
  { intros fin -> (Hab & _). cbn. case_bool_decide as Hev.
    - apply precedesb_seen.
    - apply precedesb_no_q. revert Hab. apply forallb_impl. intros e He.
      assert (ev ≠ fin) as Hne by congruence.
      by destruct (about_other fin ev e Hne He) as [-> _]. }
  destruct e; cbn in H; try (by eapply Hnew);
    destruct H as [Hq Htr]; try done; cbn; by apply IH.
Qed.

(** ** The rules of the trace logic *)

Section TraceLogic.
Context {St : Type} (P : EventLoopPolicy St).

Lemma adds_weaken {A} (m : M St A) (Φ Φ' : result A → list event → Prop) :
  adds m Φ → (∀ r tr, Φ r tr → Φ' r tr) → adds m Φ'.
Proof.
  intros Hm Himp t w. destruct (Hm t w) as (tr & Htr & HΦ).
  exists tr. split; [done|]. by apply Himp.
Qed.

Lemma adds_ret {A} (a : A) :
  adds (St:=St) (mret a) (λ r tr, r = Return a ∧ tr = []).
Proof. intros t w. by exists []. Qed.

Lemma adds_raise {A} (e : exn) :
  adds (St:=St) (A:=A) (raise e) (λ r tr, r = Raise e ∧ tr = []).
Proof. intros t w. by exists []. Qed.

Lemma adds_bind {A B} (m : M St A) (k : A → M St B) Φ Ψ :
  adds m Φ → (∀ a, adds (k a) (Ψ a)) → adds (m ≫= k) (then_ Φ Ψ).
Proof.
  intros Hm Hk t w. unfold mbind, M_bind, bind.
  destruct (Hm t w) as (tr1 & Htr1 & H1).
  destruct (m t w) as [[a|e| |] w1]; cbn in *.
  - destruct (Hk a t w1) as (tr2 & Htr2 & H2).
    exists (tr1 ++ tr2)%list. split.
    + by rewrite Htr2, Htr1, rev_app_distr, app_assoc.
    + exists (Return a), tr1. split; [done|]. by exists tr2.
  - exists tr1. split; [done|]. by exists (Raise e), tr1.
  - exists tr1. split; [done|]. by exists Blocked, tr1.
  - exists tr1. split; [done|]. by exists OutOfFuel, tr1.
Qed.

Lemma adds_if {A} (b : bool) (m1 m2 : M St A) Φ1 Φ2 :
  adds m1 Φ1 → adds m2 Φ2 →
  adds (if b then m1 else m2) (if b then Φ1 else Φ2).
Proof. by destruct b. Qed.

Lemma adds_try_except {A} (body : M St A) C (handler : exn → M St A) Φ Ψ :
  adds body Φ → (∀ e, adds (handler e) (Ψ e)) →
  adds (try_except body C handler) (caught C Φ Ψ).
Proof.
  intros Hb Hh t w. unfold try_except.
  destruct (Hb t w) as (tr1 & Htr1 & H1).
  destruct (body t w) as [[a|e| |] w1]; cbn in *.
  - exists tr1. split; [done|]. by exists (Return a), tr1.
  - destruct (isinstance e C) eqn:HC.
    + destruct (Hh e t w1) as (tr2 & Htr2 & H2).
      exists (tr1 ++ tr2)%list. split.
      * by rewrite Htr2, Htr1, rev_app_distr, app_assoc.
      * exists (Raise e), tr1. split; [done|]. rewrite HC. by exists tr2.
    + exists tr1. split; [done|]. exists (Raise e), tr1. by rewrite HC.
  - exists tr1. split; [done|]. by exists Blocked, tr1.
  - exists tr1. split; [done|]. by exists OutOfFuel, tr1.
Qed.

Lemma adds_finally (fin : M St unit) Φf (r2 : result unit) (t : nat)
    (w w2 : World St) (tr12 : list event) :
  adds fin Φf →
  w_trace w2 = (rev tr12 ++ w_trace w)%list →
  ∃ tr, w_trace (run_finally fin t (r2, w2)).2 = (rev tr ++ w_trace w)%list
        ∧ finally_ Φf r2 tr12 (run_finally fin t (r2, w2)).1 tr.
Proof.
  intros Hf H12. destruct r2 as [[]|e| |]; cbn.
  - destruct (Hf t w2) as (tr3 & Htr3 & H3).
    exists (tr12 ++ tr3)%list. split.
    + by rewrite Htr3, H12, rev_app_distr, app_assoc.
    + by exists tr3.
  - destruct (Hf t w2) as (tr3 & Htr3 & H3).
    exists (tr12 ++ tr3)%list. split.
    + destruct (fin t w2) as [[[]|e'| |] w3]; cbn in *;
        by rewrite Htr3, H12, rev_app_distr, app_assoc.
    + exists (fin t w2).1, tr3. split; [done|]. split; [done|].
      by destruct (fin t w2) as [[[]|e'| |] w3].
  - by exists tr12.
  - by exists tr12.
Qed.

Lemma adds_try_except_else_finally {A} (body : M St A) C handler orelse fin
    Φ Ψh Ψe Φf :
  adds body Φ → (∀ e, adds (handler e) (Ψh e)) →
  (∀ a, adds (orelse a) (Ψe a)) → adds fin Φf →
  adds (try_except_else_finally body C handler orelse fin)
    (guarded C Φ Ψh Ψe Φf).
Proof.
  intros Hb Hh He Hf t w. unfold try_except_else_finally.
  destruct (Hb t w) as (tr1 & Htr1 & H1).
  destruct (body t w) as [[a|e| |] w1]; cbn in *.
  - destruct (He a t w1) as (tr2 & Htr2 & H2).
    destruct (orelse a t w1) as [r2 w2]; cbn in *.
    destruct (adds_finally fin Φf r2 t w w2 (tr1 ++ tr2)%list Hf)
      as (tr & Htr & H3).
    { by rewrite Htr2, Htr1, rev_app_distr, app_assoc. }
    exists tr. split; [done|].
    exists (Return a), tr1. split; [done|]. by exists r2, tr2.
  - destruct (isinstance e C) eqn:HC.
    + destruct (Hh e t w1) as (tr2 & Htr2 & H2).
      destruct (handler e t w1) as [r2 w2]; cbn in *.
      destruct (adds_finally fin Φf r2 t w w2 (tr1 ++ tr2)%list Hf)
        as (tr & Htr & H3).
      { by rewrite Htr2, Htr1, rev_app_distr, app_assoc. }
      exists tr. split; [done|].
      exists (Raise e), tr1. split; [done|]. rewrite HC. by exists r2, tr2.
    + destruct (adds_finally fin Φf (Raise e) t w w1 tr1 Hf Htr1)
        as (tr & Htr & H3).
      exists tr. split; [done|].
      exists (Raise e), tr1. split; [done|]. by rewrite HC.
  - exists tr1. split; [done|]. by exists Blocked, tr1.
  - exists tr1. split; [done|]. by exists OutOfFuel, tr1.
Qed.

End TraceLogic.

Section Primitives.
Context {St : Type} (P : EventLoopPolicy St).

Lemma adds_silent {A} (m : M St A) :
  (∀ t w, w_trace (m t w).2 = w_trace w) → adds m (λ _ tr, tr = []).
Proof. intros H t w. exists []. by rewrite H. Qed.

Lemma adds_emit (e : event) :
  adds (St:=St) (emit e) (λ r tr, r = Return () ∧ tr = [e]).
Proof. intros t w. by exists [e]. Qed.

Lemma adds__L_debug (msg : string) :
  adds (St:=St) (_L_debug msg) (λ r tr, r = Return () ∧ tr = [EvLog msg]).
Proof. apply adds_emit. Qed.

Lemma adds_task_cancel (task : nat) :
  adds (St:=St) (task_cancel task)
    (λ r tr, r = Return () ∧ tr = [EvTaskCancel task]).
Proof. apply adds_emit. Qed.

Lemma adds_platform_system : adds (St:=St) platform_system (λ _ tr, tr = []).
Proof. by apply adds_silent. Qed.

Lemma adds_asyncio_ProactorEventLoop :
  adds (St:=St) asyncio_ProactorEventLoop (λ _ tr, tr = []).
Proof.
  apply adds_silent. intros t w. unfold asyncio_ProactorEventLoop.
  by case_bool_decide.
Qed.

Lemma adds_asyncio_get_event_loop :
  adds (asyncio_get_event_loop P) (λ _ tr, tr = []).
Proof.
  apply adds_silent. intros t w.
  destruct (asyncio_get_event_loop_local P t w) as [s ->]. done.
Qed.

Lemma adds_ensure_event_loop : adds (ensure_event_loop P) (λ _ tr, tr = []).
Proof.
  apply adds_silent. intros t w.
  destruct (ensure_event_loop_local P t w) as [s ->]. done.
Qed.

Lemma adds_asyncio_ensure_future (c : coroutine) :
  adds (asyncio_ensure_future P c) (λ _ tr, tr = []).
Proof.
  apply adds_silent. intros t w.
  unfold asyncio_ensure_future, mbind, M_bind, bind.
  destruct (asyncio_get_event_loop_local P t w) as [s Hs].
  by destruct (asyncio_get_event_loop P t w) as [[l|e| |] w1];
    cbn in *; subst.
Qed.

Lemma adds_loop_is_running (l : Loop) :
  adds (St:=St) (loop_is_running l) (λ _ tr, tr = []).
Proof. by apply adds_silent. Qed.

Lemma adds_getattr (ev : nat) (name : string) :
  adds (St:=St) (getattr ev name) (λ _ tr, tr = []).
Proof.
  apply adds_silent. intros t w. unfold getattr.
  by destruct (ev_dict (event_obj ev w) !! name).
Qed.

Lemma adds_getattr_loop (ev : nat) (name : string) :
  adds (St:=St) (getattr_loop ev name) (λ _ tr, tr = []).
Proof.
  apply adds_silent. intros t w.
  unfold getattr_loop, getattr, mbind, M_bind, bind.
  by destruct (ev_dict (event_obj ev w) !! name) as [[]|].
Qed.

Lemma adds_threading_wait (ev : nat) :
  adds (St:=St) (threading_wait ev) (λ _ tr, tr = []).
Proof.
  apply adds_silent. intros t w. unfold threading_wait.
  by destruct (ev_flag (event_obj ev w)).
Qed.

Lemma adds_call (f : pyfunc) (args : list value) (kw : kwargs) :
  adds (St:=St) (call f args kw) (λ _ tr, tr = []).
Proof. apply adds_silent. intros t w. unfold call. by destruct (f args kw). Qed.

Lemma adds_await (c : coroutine) :
  adds (St:=St) (await c) (λ _ tr, tr = []).
Proof. by apply adds_silent. Qed.

Lemma adds_raise_value {A} (v : value) :
  adds (St:=St) (A:=A) (raise_value v) (λ r tr, (∃ e, r = Raise e) ∧ tr = []).
Proof.
  intros t w. exists []. split; [by destruct v|]. destruct v; cbn; eauto.
Qed.

Lemma adds_Task_current_task (l : Loop) :
  adds (St:=St) (Task_current_task l) (λ _ tr, tr = []).
Proof. by apply adds_silent. Qed.

Lemma adds_Task_all_tasks (l : Loop) :
  adds (St:=St) (Task_all_tasks l) (λ _ tr, tr = []).
Proof.
  apply adds_silent. intros t w. unfold Task_all_tasks.
  by destruct (w_faults w).
Qed.

Lemma adds_Event_new :
  adds (St:=St) Event_new (λ r tr, ∃ ev, r = Return ev ∧ tr = [EvNew ev]).
Proof. intros t w. exists [EvNew (w_next_event w)]. eauto. Qed.

Lemma adds_Event_clear (ev : nat) :
  adds (St:=St) (Event_clear ev) (λ r tr, r = Return () ∧ tr = [EvClear ev]).
Proof. intros t w. by exists [EvClear ev]. Qed.

Lemma adds_Event_set (ev : nat) :
  adds (St:=St) (Event_set ev) (λ r tr, r = Return () ∧ tr = [EvSet ev]).
Proof. intros t w. by exists [EvSet ev]. Qed.

Lemma adds_setattr (ev : nat) (name : string) (v : value) :
  adds (St:=St) (setattr ev name v)
    (λ r tr, r = Return () ∧ tr = [EvSetAttr ev name v]).
Proof. intros t w. by exists [EvSetAttr ev name v]. Qed.

Lemma adds_loop_run_until_complete (l : Loop) (fut : awaitable) :
  adds (St:=St) (loop_run_until_complete l fut)
    (λ _ tr, tr = [] ∨ tr = [EvRun l]).
Proof.
  intros t w. unfold loop_run_until_complete.
  destruct (is_closed l w); [by exists []; auto|].
  destruct (is_running l w); [by exists []; auto|].
  case_bool_decide; [by exists []; auto|].
  destruct fut as [c|l' c]; [by exists [EvRun l]; auto|].
  case_bool_decide; [by exists [EvRun l]; auto|by exists []; auto].
Qed.

Lemma adds_loop_close (l : Loop) :
  adds (St:=St) (loop_close l)
    (λ r tr, tr = [] ∨ (r = Return () ∧ tr = [EvClose l])).
Proof.
  intros t w. unfold loop_close.
  destruct (is_running l w); [by exists []; auto|].
  destruct (is_closed l w); [by exists []; auto|].
  exists [EvClose l]. auto.
Qed.

Lemma adds_loop_call_soon_threadsafe (l : Loop) (cb : callback) :
  adds (St:=St) (loop_call_soon_threadsafe l cb)
    (λ r tr, (r ≠ Return () ∧ tr = []) ∨ (r = Return () ∧ tr = [EvCallSoon l cb])).
Proof.
  intros t w. unfold loop_call_soon_threadsafe.
  destruct (is_closed l w); [by exists []; auto|].
  exists [EvCallSoon l cb]. auto.
Qed.

Lemma adds_Thread_start (target : M St unit) Φ :
  adds target Φ →
  adds (Thread_start target)
    (λ r tr, r = Return () ∧ ∃ th r' tr', Φ r' tr' ∧ tr = EvThread th :: tr').
Proof.
  intros H t w. unfold Thread_start.
  destruct (H (w_next_thread w)
              (record (EvThread (w_next_thread w))
                 (with_next_thread (S (w_next_thread w)) w)))
    as (tr & Htr & HΦ).
  exists (EvThread (w_next_thread w) :: tr). cbn. split.
  - rewrite Htr. cbn. by rewrite <- app_assoc.
  - split; [done|]. eauto.
Qed.

End Primitives.

(** ** The traces of [_run], [with_loop] and [cancellable] *)

(** Case analysis of a postcondition built by the rules above. *)
Ltac break :=
  repeat match goal with
  | H : ∃ _, _ |- _ => destruct H
  | H : _ ∧ _ |- _ => destruct H
  | H : _ ∨ _ |- _ => destruct H
  | H : match ?r with _ => _ end |- _ => destruct r eqn:?
  | H : (if ?b then _ else _) _ _ |- _ => destruct b eqn:?
  | H : Return _ = Return _ |- _ => injection H as H
  | H : Return _ = Raise _ |- _ => discriminate H
  | H : Return _ = Blocked |- _ => discriminate H
  | H : Return _ = OutOfFuel |- _ => discriminate H
  end; subst.

Ltac check_trace :=
  cbn; rewrite ?bool_decide_eq_true_2 by done; cbn; try done.

Section Traces.
Context {St : Type} (P : EventLoopPolicy St).

Lemma adds__run (fin : nat) (gen : coroutine) :
  adds (_run P fin gen) (λ _ tr, run_ok fin tr).
Proof.
  unfold _run. eapply adds_weaken.
  { eapply adds_bind; [apply adds_ensure_event_loop|]. intros loop.
    eapply adds_bind; [|intros; apply adds_Event_set].
    eapply adds_try_except_else_finally.
    - eapply adds_bind; [apply adds_asyncio_ensure_future|].
      intros fut. apply adds_loop_run_until_complete.
    - intros e. eapply adds_bind; [apply adds_setattr|].
      intros. apply adds_setattr.
    - intros a. eapply adds_bind; [apply adds_setattr|].
      intros. apply adds_setattr.
    - eapply adds_bind; [apply adds_loop_close|].
      intros. apply adds__L_debug. }
  intros r tr H. unfold then_, guarded, finally_ in H. break.
  all: unfold run_ok; check_trace.
Qed.

Lemma run_ok_thread (fin th : nat) (tr : list event) :
  run_ok fin tr → run_ok fin (EvThread th :: tr).
Proof. intros (? & ? & ? & ?). by repeat split. Qed.

Lemma run_ok_nil (fin : nat) : run_ok fin [].
Proof. by repeat split. Qed.

Lemma adds_with_loop (func : pyfunc) (args : list value) (kw : kwargs) :
  adds (with_loop P func args kw) (λ _ tr, isolated_ok tr).
Proof.
  unfold with_loop. eapply adds_weaken.
  { eapply adds_bind; [apply adds_ensure_event_loop|]. intros loop.
    eapply adds_bind; [apply adds_loop_is_running|]. intros running.
    eapply adds_bind.
    { apply adds_if.
      - eapply adds_bind; [apply adds__L_debug|]. intros. apply adds_ret.
      - eapply adds_bind; [apply adds_platform_system|]. intros system.
        eapply adds_bind; [apply adds_asyncio_ProactorEventLoop|].
        intros proactor. apply adds_if.
        + eapply adds_bind; [apply adds__L_debug|]. intros. apply adds_ret.
        + apply adds_ret. }
    intros thread_required. apply adds_if.
    - eapply adds_bind; [apply adds__L_debug|]. intros ?.
      eapply adds_bind; [apply adds_Event_new|]. intros finished.
      eapply adds_bind; [apply adds_call|]. intros generator.
      eapply adds_bind;
        [apply adds_Thread_start, (adds__run finished generator)|].
      intros ?.
      eapply adds_bind; [apply adds_threading_wait|]. intros ?.
      eapply adds_bind; [apply adds_getattr|]. intros error.
      apply adds_if; [apply adds_raise_value|apply adds_getattr].
    - eapply adds_bind; [apply adds__L_debug|]. intros ?.
      eapply adds_bind; [apply adds_call|]. intros c.
      apply adds_loop_run_until_complete. }
  intros r tr H. unfold then_ in H. break.
  all: rewrite ?app_nil_r; cbn;
    repeat match goal with |- _ ∧ _ => split end;
    first [done | by apply run_ok_thread | apply run_ok_nil].
Qed.

Lemma adds_cancellable_wrapped (st : nat) (f : pyfunc) (args : list value)
    (kw : kwargs) :
  adds (cancellable_wrapped P st f args kw) (λ _ tr, wrapped_ok st tr).
Proof.
  unfold cancellable_wrapped. eapply adds_weaken.
  { eapply adds_bind; [apply adds_Event_clear|]. intros ?.
    eapply adds_bind; [apply adds_ensure_event_loop|]. intros loop.
    eapply adds_bind; [apply adds_setattr|]. intros ?.
    eapply adds_bind; [apply adds_Event_set|]. intros ?.
    eapply adds_bind; [apply adds_getattr_loop|]. intros loop'.
    eapply adds_bind; [apply adds_call|]. intros c.
    apply adds_loop_run_until_complete. }
  intros r tr H. unfold then_ in H. break.
  all: unfold wrapped_ok; check_trace.
Qed.

End Traces.

Lemma adds_since {St A} (m : M St A) Φ (t : nat) (w : World St) :
  adds m Φ → Φ (m t w).1 (since w (m t w).2).
Proof.
  intros H. destruct (H t w) as (tr & Htr & HΦ).
  by rewrite (since_app w _ (rev tr) Htr), rev_involutive.
Qed.

(** ** The order of payload and flag *)

(** C8: in every call of the wrapper of [with_loop], whatever signal
    [ev] has its flag raised, its attributes "result" and "error" were
    written earlier in that call (the background thread writes both, then
    closes the loop, then sets the flag); and in every call of a wrapper made
    by [cancellable], the flag of the started signal is raised only after the
    attribute "loop" was written, and the coroutine is driven only after the
    flag was raised. *)
Theorem payload_attached_before_flag {St : Type} (P : EventLoopPolicy St) :
  (∀ func args kw t w ev,
     precedes (is_setattr ev "result") (is_set ev)
       (since w (with_loop P func args kw t w).2)
     ∧ precedes (is_setattr ev "error") (is_set ev)
         (since w (with_loop P func args kw t w).2))
  ∧ (∀ f t0 w0,
       match cancellable P f t0 w0 with
       | (Return h, _) =>
           ∀ args kw t w,
             precedes (is_setattr (started h) "loop") (is_set (started h))
               (since w (_wrapped h args kw t w).2)
             ∧ precedes (is_set (started h)) is_run
                 (since w (_wrapped h args kw t w).2)
       | _ => False
       end).
Proof.
  split.
  - intros func args kw t w ev.
    pose proof (adds_since _ _ t w (adds_with_loop P func args kw)) as H.
    cbn in H. split; apply precedesb_sound;
      by apply isolated_payload_first; [auto|].
  - intros f t0 w0. cbn. intros args kw t w.
    pose proof (adds_since _ _ t w
                  (adds_cancellable_wrapped P (w_next_event w0) f args kw))
      as (_ & _ & _ & H1 & H2).
    split; by apply precedesb_sound.
Qed.

(** The effects of one isolated call and of one call of a cancellable
    wrapper, as the theorem orders them. *)
Example payload_attached_before_flag_runs :
  since (serving "Linux" SelectorEventLoop)
    (with_loop default_policy foo [VStr "hello"] ∅ MainThread
       (serving "Linux" SelectorEventLoop)).2
  = [EvLog "Event loop is already running.";
     EvLog "Execute new loop in background thread.";
     EvNew 0; EvThread 1;
     EvRun (MkLoop 1 SelectorEventLoop);
     EvSetAttr 0 "result" (VStr "hello"); EvSetAttr 0 "error" VNone;
     EvClose (MkLoop 1 SelectorEventLoop);
     EvLog "closed event loop"; EvSet 0]
  ∧ since (boot "Linux" SelectorEventLoop)
      (cancellable_wrapped default_policy 0 foo [VInt 1] ∅ 1
         (boot "Linux" SelectorEventLoop)).2
    = [EvClear 0; EvSetAttr 0 "loop" (VLoop (MkLoop 0 SelectorEventLoop));
       EvSet 0; EvRun (MkLoop 0 SelectorEventLoop)].
Proof. split; vm_compute; reflexivity. Qed.

(** ** [cancel()] and the sweep of [_cancel] *)

Section Cancel.
Context {St : Type} (P : EventLoopPolicy St).

Lemma with_trace_id (w : World St) : with_trace (w_trace w) w = w.
Proof. by destruct w. Qed.

Lemma for_each_task_cancel (tasks : list nat) (t : nat) (w : World St) :
  for_each task_cancel tasks t w
  = (Return (),
     with_trace (rev (EvTaskCancel <$> tasks) ++ w_trace w)%list w).
Proof.
  revert w. induction tasks as [|task tasks IH]; intros w; cbn.
  - by rewrite with_trace_id.
  - unfold mbind, M_bind, bind. cbn. rewrite IH. cbn.
    by rewrite <- app_assoc.
Qed.

Lemma _cancel_sweep_retries (loop : Loop) (cur : option nat) :
  ∀ faults fuel t (w : World St),
    w_faults w = faults →
    Forall (λ e, isinstance e RuntimeError = true) faults →
    length faults < fuel →
    _cancel_sweep fuel loop cur t w
    = (Return (filter (λ task, Some task ≠ cur)
                 (default [] (w_tasks w !! loop_id loop))),
       with_trace (rev (retry_log <$> faults) ++ w_trace w)%list
         (with_faults [] w)).
Proof.
  induction faults as [|e faults IH]; intros fuel t w Hw Hall Hfuel;
    (destruct fuel as [|fuel]; [cbn in Hfuel; lia|]); cbn.
  - unfold try_except, mbind, M_bind, bind, Task_all_tasks. rewrite Hw.
    cbn. destruct w; cbn in *. by subst.
  - unfold try_except, mbind, M_bind, bind, Task_all_tasks. rewrite Hw.
    cbn. inversion Hall as [|? ? He Hrest]; subst. rewrite He.
    unfold _L_debug, emit. cbn.
    erewrite IH; [|reflexivity|exact Hrest|cbn in Hfuel; lia].
    cbn. by rewrite <- app_assoc.
Qed.

Lemma _cancel_sweeps (fuel t : nat) (w : World St) (loop : Loop)
    (w1 : World St) :
  ensure_event_loop P t w = (Return loop, w1) →
  Forall (λ e, isinstance e RuntimeError = true) (w_faults w) →
  length (w_faults w) < fuel →
  _cancel P fuel t w
  = (Return (),
     with_trace
       (rev (EvTaskCancel <$>
               filter (λ task, Some task ≠ w_current w !! loop_id loop)
                 (default [] (w_tasks w !! loop_id loop)))
        ++ rev (retry_log <$> w_faults w) ++ w_trace w)%list
       (with_faults [] w1)).
Proof.
  intros He Hall Hfuel. unfold _cancel, mbind, M_bind, bind. rewrite He.
  destruct (ensure_event_loop_local P t w) as [s Hs]. rewrite He in Hs.
  cbn in Hs. subst w1. cbn.
  erewrite _cancel_sweep_retries; [|reflexivity|exact Hall|exact Hfuel].
  by rewrite for_each_task_cancel.
Qed.

Lemma cancellable_cancel_queues (st t : nat) (w : World St) (l : Loop) :
  ev_dict (event_obj st w) !! "loop" = Some (VLoop l) →
  is_closed l w = false →
  cancellable_cancel st t w
  = (Return (),
     record (EvCallSoon l CbCancel)
       (with_ready
          (<[loop_id l := (default [] (w_ready w !! loop_id l)
                           ++ [CbCancel])%list]> (w_ready w)) w)).
Proof.
  intros Hl Hc.
  unfold cancellable_cancel, getattr_loop, getattr, mbind, M_bind, bind,
    loop_call_soon_threadsafe.
  rewrite Hl. cbn. by rewrite Hc.
Qed.

Lemma cancellable_cancel_idle (st t : nat) (w : World St) :
  ev_dict (event_obj st w) !! "loop" = None →
  cancellable_cancel st t w = (Raise (no_attribute "Event" "loop"), w).
Proof.
  intros Hl.
  unfold cancellable_cancel, getattr_loop, getattr, mbind, M_bind, bind.
  by rewrite Hl.
Qed.

End Cancel.

(** C6: [cancel()] of a cancellable wrapper whose started signal carries
    the loop [l] only queues [_cancel] on [l] through
    [call_soon_threadsafe]; the loop runs that callback as [_cancel]; in the
    thread that runs [l], [ensure_event_loop] gives [l] back; and [_cancel],
    on the loop [ensure_event_loop] gives it, enumerates again
    after every [RuntimeError] of the enumeration (logging each, raising
    none), then requests the cancellation of exactly the tasks of the loop
    that are not the current task. *)
Theorem cancel_sweeps_all_but_current {St : Type} (P : EventLoopPolicy St) :
  (∀ f t0 w0,
     match cancellable P f t0 w0 with
     | (Return h, _) =>
         ∀ t w l,
           ev_dict (event_obj (started h) w) !! "loop" = Some (VLoop l) →
           is_closed l w = false →
           cancel h t w
           = (Return (),
              record (EvCallSoon l CbCancel)
                (with_ready
                   (<[loop_id l := (default [] (w_ready w !! loop_id l)
                                    ++ [CbCancel])%list]> (w_ready w)) w))
     | _ => False
     end)
  ∧ (∀ t w,
       run_callback P CbCancel t w = _cancel P (S (length (w_faults w))) t w)
  ∧ (∀ t w l,
       w_running w !! t = Some l → ensure_event_loop P t w = (Return l, w))
  ∧ (∀ fuel t w loop w1,
       ensure_event_loop P t w = (Return loop, w1) →
       Forall (λ e, isinstance e RuntimeError = true) (w_faults w) →
       length (w_faults w) < fuel →
       _cancel P fuel t w
       = (Return (),
          with_trace
            (rev (EvTaskCancel <$>
                    filter (λ task, Some task ≠ w_current w !! loop_id loop)
                      (default [] (w_tasks w !! loop_id loop)))
             ++ rev (retry_log <$> w_faults w) ++ w_trace w)%list
            (with_faults [] w1))).
Proof.
  split; [|split; [|split]].
  - intros f t0 w0. cbn. intros t w l. apply cancellable_cancel_queues.
  - done.
  - intros t w l. apply ensure_event_loop_running.
  - intros fuel t w loop w1. apply _cancel_sweeps.
Qed.

(** The witness: two failed enumerations, then tasks 1 and 3 are
    cancelled and task 2, the current one, is not. *)
Lemma cancel_sweeps_all_but_current_witness :
  (_cancel default_policy 3 MainThread sweeping).1 = Return ()
  ∧ since sweeping (_cancel default_policy 3 MainThread sweeping).2
    = [EvLog "ERROR: Set changed size during iteration";
       EvLog "ERROR: Set changed size during iteration";
       EvTaskCancel 1; EvTaskCancel 3].
Proof.
  rewrite (proj2 (proj2 (proj2 (cancel_sweeps_all_but_current default_policy)))
             3 MainThread sweeping (MkLoop 0 SelectorEventLoop) sweeping).
  - split; vm_compute; reflexivity.
  - vm_compute. reflexivity.
  - repeat constructor.
  - vm_compute. lia.
Defined.

(** ** [cancel()] before the first call *)

(** C3, as the code has it: right after [cancellable] has wrapped a
    function, and as long as the started signal has no attribute "loop",
    [cancel()] raises the [AttributeError] of the missing attribute and
    leaves the world as it was: nothing is queued and no task is cancelled. *)
Theorem cancel_when_idle_raises {St : Type} (P : EventLoopPolicy St)
    (f : pyfunc) (t0 : nat) (w0 : World St) :
  match cancellable P f t0 w0 with
  | (Return h, w) =>
      (∀ t, cancel h t w = (Raise (no_attribute "Event" "loop"), w))
      ∧ (∀ t w',
           ev_dict (event_obj (started h) w') !! "loop" = None →
           cancel h t w' = (Raise (no_attribute "Event" "loop"), w'))
  | _ => False
  end.
Proof.
  cbn. split.
  - intros t. apply cancellable_cancel_idle. unfold event_obj. cbn.
    by rewrite lookup_insert_eq.
  - intros t w'. apply cancellable_cancel_idle.
Qed.

(** The counterexample to C3 as stated: [cancel()] on a wrapper that was
    never called does not return. *)
Lemma cancel_when_idle_not_a_noop :
  match cancellable default_policy foo MainThread
          (boot "Linux" SelectorEventLoop) with
  | (Return h, w) => ¬ returns_quietly (cancel h) MainThread w
  | _ => False
  end.
Proof.
  vm_compute. intros [a Ha]. discriminate Ha.
Qed.

(** ** [with_loop]: the two paths on the tests' coroutine *)

(** C1 at its failing input.  On Windows, with the proactor loop of the
    main thread bound and idle, the wrapper takes the direct path and calls
    the coroutine function without its positional argument: for the
    identity coroutine [foo] and the argument "hello" it raises the
    [TypeError] of the missing argument, where awaiting [foo("hello")] gives
    "hello"; from inside a running loop the same call goes through the
    background thread and does give "hello". *)
Theorem with_loop_drops_positional_arguments :
  await_call foo [VStr "hello"] ∅ = Return (VStr "hello")
  ∧ (with_loop default_policy foo [VStr "hello"] ∅ MainThread
       (boot "Windows" ProactorEventLoop)).1
    = Raise (Exn TypeError
               "foo() missing 1 required positional argument: 'a_'")
  ∧ (with_loop default_policy foo [VStr "hello"] ∅ MainThread
       (serving "Windows" ProactorEventLoop)).1
    = Return (VStr "hello").
Proof. repeat split; vm_compute; reflexivity. Qed.

(** Off Windows the direct path is not even reached: with an idle loop
    the wrapper evaluates [asyncio.ProactorEventLoop], which asyncio does
    not have there. *)
Example with_loop_idle_loop_off_windows :
  (with_loop default_policy foo [VStr "hello"] ∅ MainThread
     (boot "Linux" SelectorEventLoop)).1
  = Raise (Exn AttributeError
             "module 'asyncio' has no attribute 'ProactorEventLoop'").
Proof. vm_compute. reflexivity. Qed.

(** C4 at its failing inputs.  On the direct path the failure of
    [boom("x")], a [ValueError], is never produced, because [boom] is called
    without its argument: the caller gets a [TypeError].  On the isolation
    path a failure that is not an [Exception], here [SystemExit], is not
    caught in the background thread, the flag is never set, and the caller
    stays blocked on it. *)
Theorem with_loop_failure_not_reraised :
  await_call boom [VStr "x"] ∅ = Raise (Exn ValueError "x")
  ∧ (with_loop default_policy boom [VStr "x"] ∅ MainThread
       (boot "Windows" ProactorEventLoop)).1
    = Raise (Exn TypeError
               "boom() missing 1 required positional argument: 'x'")
  ∧ await_call leave [] ∅ = Raise (Exn SystemExit "0")
  ∧ (with_loop default_policy leave [] ∅ MainThread
       (serving "Linux" SelectorEventLoop)).1
    = Blocked.
Proof. repeat split; vm_compute; reflexivity. Qed.

(** What does hold of C4: a [ValueError] raised in the background thread
    comes back to the caller as it is. *)
Example with_loop_reraises_exception :
  (with_loop default_policy boom [VStr "x"] ∅ MainThread
     (serving "Linux" SelectorEventLoop)).1
  = Raise (Exn ValueError "x").
Proof. vm_compute. reflexivity. Qed.

(** ** [sync] and its executor *)

(** C2 at its failing input.  [sync] does not depend on the executor it
    is given; with the recording executor, a call of the bridged identity
    returns its argument, and its effects are the write of the result, the
    scheduling of [done.set] and the raising of the flag: the executor's own
    record is not among them, whereas invoking the executor does leave
    it. *)
Theorem sync_never_invokes_executor :
  (∀ St (P : EventLoopPolicy St) (ex1 ex2 : Executor),
     sync P ex1 = sync P ex2)
  ∧ match sync default_policy recording_executor foo MainThread
            (boot "Linux" SelectorEventLoop) with
    | (Return g, w) =>
        (g [VInt 1] MainThread
           (inside MainThread (MkLoop 0 SelectorEventLoop) w)).1
        = Return (VInt 1)
        ∧ since (inside MainThread (MkLoop 0 SelectorEventLoop) w)
            (g [VInt 1] MainThread
               (inside MainThread (MkLoop 0 SelectorEventLoop) w)).2
          = [EvSetAttr 0 "result" (VInt 1);
             EvCallSoon (MkLoop 0 SelectorEventLoop) (CbEventSet 0);
             EvSet 0]
    | _ => False
    end
  ∧ since (boot "Linux" SelectorEventLoop)
      (recording_executor (λ _, mret (VInt 1)) [] MainThread
         (boot "Linux" SelectorEventLoop)).2
    = [EvLog "executor: scheduling the call"].
Proof.
  split; [done|]. split; [|vm_compute; reflexivity].
  vm_compute. split; reflexivity.
Qed.

(** ** Calls that create no signal *)

Section Keeps.
Context {St : Type} (P : EventLoopPolicy St).

Lemma each_silent {A} (p : event → bool) (m : M St A) :
  adds m (λ _ tr, tr = []) → each p m.
Proof. intros H. eapply adds_weaken; [exact H|]. by intros r tr ->. Qed.

Lemma each_emit (p : event → bool) (e : event) :
  p e = true → each p (emit (St:=St) e).
Proof.
  intros He. eapply adds_weaken; [apply adds_emit|].
  intros r tr [_ ->]. cbn. by rewrite He.
Qed.

Lemma each_ret {A} (p : event → bool) (a : A) : each p (mret (M:=M St) a).
Proof.
  apply each_silent. eapply adds_weaken; [apply adds_ret|].
  by intros ?? [_ ->].
Qed.

Lemma each_bind {A B} (p : event → bool) (m : M St A) (k : A → M St B) :
  each p m → (∀ a, each p (k a)) → each p (m ≫= k).
Proof.
  intros Hm Hk. eapply adds_weaken.
  { exact (adds_bind m k (λ _ tr, forallb p tr = true)
             (λ _ _ tr, forallb p tr = true) Hm Hk). }
  intros r tr H. unfold then_ in H. break; try done.
  rewrite forallb_app. by apply andb_true_intro.
Qed.

Lemma each_try_except {A} (p : event → bool) (body : M St A) C handler :
  each p body → (∀ e, each p (handler e)) →
  each p (try_except body C handler).
Proof.
  intros Hb Hh.
  eapply adds_weaken.
  { exact (adds_try_except body C handler (λ _ tr, forallb p tr = true)
             (λ _ _ tr, forallb p tr = true) Hb Hh). }
  intros r tr H. unfold caught in H. break; try done.
  rewrite forallb_app. by apply andb_true_intro.
Qed.

Lemma each_for_each_task_cancel (tasks : list nat) :
  each keeps (for_each (St:=St) task_cancel tasks).
Proof.
  induction tasks as [|task tasks IH]; cbn.
  - apply each_ret.
  - apply each_bind; [by apply each_emit|by intros].
Qed.

Lemma each__cancel_sweep (fuel : nat) (loop : Loop) (cur : option nat) :
  each keeps (_cancel_sweep (St:=St) fuel loop cur).
Proof.
  induction fuel as [|fuel IH]; cbn.
  - apply each_silent. by apply adds_silent.
  - apply each_try_except.
    + apply each_bind; [apply each_silent, adds_Task_all_tasks|].
      intros. apply each_ret.
    + intros e. apply each_bind; [by apply each_emit|by intros].
Qed.

Lemma each__cancel (fuel : nat) : each keeps (_cancel P fuel).
Proof.
  unfold _cancel.
  apply each_bind; [apply each_silent, adds_ensure_event_loop|]. intros loop.
  apply each_bind; [apply each_silent, adds_Task_current_task|]. intros cur.
  apply each_bind; [apply each__cancel_sweep|]. intros tasks.
  apply each_for_each_task_cancel.
Qed.

Lemma each_run_callback (cb : callback) : each keeps (run_callback P cb).
Proof.
  destruct cb as [ev|]; cbn.
  - eapply adds_weaken; [apply adds_Event_set|]. by intros r tr [_ ->].
  - intros t w. apply (each__cancel (S (length (w_faults w))) t w).
Qed.

Lemma each_run_handles (cbs : list callback) :
  each keeps (run_handles P cbs).
Proof.
  induction cbs as [|cb cbs IH]; cbn.
  - apply each_ret.
  - intros t w.
    destruct (each_run_callback cb t w) as (tr1 & Htr1 & H1).
    destruct (IH t (run_callback P cb t w).2) as (tr2 & Htr2 & H2).
    exists (tr1 ++ tr2)%list. split.
    + by rewrite Htr2, Htr1, rev_app_distr, app_assoc.
    + rewrite forallb_app. by apply andb_true_intro.
Qed.

Lemma each_asyncio_Event_wait (ev : nat) :
  each keeps (asyncio_Event_wait P ev).
Proof.
  intros t w. unfold asyncio_Event_wait.
  destruct (ev_flag (event_obj ev w)); [by exists []|].
  destruct (w_running w !! t) as [l|]; [|by exists []].
  destruct (each_run_handles (default [] (w_ready w !! loop_id l)) t
              (with_ready (delete (loop_id l) (w_ready w)) w))
    as (tr & Htr & H).
  exists tr. unfold loop_run_once.
  by destruct (ev_flag (event_obj ev _)).
Qed.

Lemma adds_call_result (f : pyfunc) (args : list value) (kw : kwargs) :
  adds (St:=St) (call f args kw)
    (λ r tr,
       tr = []
       ∧ r = match f args kw with inl e => Raise e | inr c => Return c end).
Proof. intros t w. exists []. unfold call. by destruct (f args kw). Qed.

Lemma adds_await_result (c : coroutine) :
  adds (St:=St) (await c) (λ r tr, tr = [] ∧ r = c).
Proof. intros t w. by exists []. Qed.

Lemma adds_sync_synced (loop : Loop) (done : nat) (f : pyfunc)
    (args : list value) :
  adds (sync_synced P loop done f args) (λ _ tr, synced_ok done f args tr).
Proof.
  unfold sync_synced, sync_wrapped. eapply adds_weaken.
  { eapply adds_bind.
    - eapply adds_bind.
      + eapply adds_bind; [apply adds_call_result|].
        intros c. apply adds_await_result.
      + intros r. eapply adds_bind; [apply adds_setattr|]. intros ?.
        eapply adds_bind; [apply adds_loop_call_soon_threadsafe|].
        intros ?. apply adds_ret.
    - intros ?. eapply adds_bind; [apply each_asyncio_Event_wait|].
      intros ?. apply adds_getattr. }
  intros r tr H. unfold then_ in H. unfold synced_ok, await_call.
  break.
  all: rewrite ?app_nil_r; cbn; rewrite ?forallb_app; cbn;
    rewrite ?andb_true_r;
    destruct (f args ∅) as [?|?] eqn:Hf; simplify_eq/=;
    (split; [done|]); intros r' Hr'; by simplify_eq.
Qed.

End Keeps.

(** ** Which call creates which signal *)

(** C9, as the code has it.  The completion signal of [with_loop] is
    made inside the call: every signal a call of the wrapper uses was created
    earlier in that same call.  The started signal of [cancellable] and the
    completion signal of [sync] are made once, when the function is
    decorated (it is the decoration's only effect), and every call of the
    decorated function works on that one signal and creates none: a call of
    the cancellable wrapper starts by clearing its flag, and a call of the
    bridged function stores the result on it and never lowers its flag. *)
Theorem signals_created_per_call_or_per_decoration {St : Type}
    (P : EventLoopPolicy St) :
  (∀ func args kw t w,
     created_in_call (since w (with_loop P func args kw t w).2))
  ∧ (∀ f t0 w0,
       match cancellable P f t0 w0 with
       | (Return h, w0') =>
           since w0 w0' = [EvNew (started h)]
           ∧ ∀ args kw t w,
               wrapped_ok (started h) (since w (_wrapped h args kw t w).2)
       | _ => False
       end)
  ∧ (∀ ex f t0 w0,
       match sync P ex f t0 w0 with
       | (Return g, w0') =>
           ∃ done,
             since w0 w0' = [EvNew done]
             ∧ ∀ args t w, synced_ok done f args (since w (g args t w).2)
       | (_, w0') => since w0 w0' = []
       end).
Proof.
  split; [|split].
  - intros func args kw t w ev. apply precedesb_sound.
    apply isolated_created_first.
    apply (adds_since _ _ t w (adds_with_loop P func args kw)).
  - intros f t0 w0. cbn. split.
    + by apply (since_app w0 _ [EvNew (w_next_event w0)]).
    + intros args kw t w.
      apply (adds_since _ _ t w
               (adds_cancellable_wrapped P (w_next_event w0) f args kw)).
  - intros ex f t0 w0. unfold sync, _sync, mbind, M_bind, bind.
    destruct (ensure_event_loop_local P t0 w0) as [s Hs].
    destruct (ensure_event_loop P t0 w0) as [[loop|e| |] w1];
      cbn in Hs; subst w1; cbn; try by apply (since_app w0 _ []).
    exists (w_next_event w0). split.
    + by apply (since_app w0 _ [EvNew (w_next_event w0)]).
    + intros args t w.
      apply (adds_since _ _ t w
               (adds_sync_synced P loop (w_next_event w0) f args)).
Qed.

(** The counterexample to C9 as stated: a call of a cancellable wrapper,
    and a call of a bridged function, use a signal they did not create; and
    after a first call of the bridged function the flag of its signal is up,
    which is how the second call finds it. *)
Lemma signals_shared_between_calls :
  match cancellable default_policy foo MainThread
          (boot "Linux" SelectorEventLoop) with
  | (Return h, w) =>
      ¬ created_in_call (since w (_wrapped h [VInt 1] ∅ 1 w).2)
  | _ => False
  end
  ∧ match sync default_policy recording_executor foo MainThread
            (boot "Linux" SelectorEventLoop) with
    | (Return g, w) =>
        ¬ created_in_call
            (since (inside MainThread (MkLoop 0 SelectorEventLoop) w)
               (g [VInt 1] MainThread
                  (inside MainThread (MkLoop 0 SelectorEventLoop) w)).2)
        ∧ ev_flag
            (event_obj 0
               (g [VInt 1] MainThread
                  (inside MainThread (MkLoop 0 SelectorEventLoop) w)).2)
          = true
    | _ => False
    end.
Proof.
  vm_compute. split; [|split; [|reflexivity]].
  - intros H.
    destruct (H 0 [] (EvClear 0) _ eq_refl eq_refl) as (e' & Hin & _).
    inversion Hin.
  - intros H.
    destruct (H 0 [] (EvSetAttr 0 "result" (VInt 1)) _ eq_refl eq_refl)
      as (e' & Hin & _).
    inversion Hin.
Qed.

(** ** What the calls return *)

Create Rewrite HintDb frame.

(** Reading a signal or a loop through an update of the world. *)
Lemma event_obj_update {St} (ev : nat) (f : EventObj → EventObj) (w : World St) :
  event_obj ev (update_event ev f w) = f (event_obj ev w).
Proof. unfold event_obj, update_event. cbn. by rewrite lookup_insert_eq. Qed.

Lemma event_obj_record {St} (ev : nat) (e : event) (w : World St) :
  event_obj ev (record e w) = event_obj ev w.
Proof. done. Qed.

Lemma event_obj_with_closed {St} (ev : nat) (c : gset nat) (w : World St) :
  event_obj ev (with_closed c w) = event_obj ev w.
Proof. done. Qed.

Lemma event_obj_with_local {St} (ev : nat) (s : St) (w : World St) :
  event_obj ev (with_local s w) = event_obj ev w.
Proof. done. Qed.

Lemma event_obj_with_next_thread {St} (ev n : nat) (w : World St) :
  event_obj ev (with_next_thread n w) = event_obj ev w.
Proof. done. Qed.

Lemma event_obj_with_ready {St} (ev : nat) q (w : World St) :
  event_obj ev (with_ready q w) = event_obj ev w.
Proof. done. Qed.

Lemma is_closed_record {St} (l : Loop) (e : event) (w : World St) :
  is_closed l (record e w) = is_closed l w.
Proof. done. Qed.

Lemma is_closed_update_event {St} (l : Loop) ev f (w : World St) :
  is_closed l (update_event ev f w) = is_closed l w.
Proof. done. Qed.

Lemma is_closed_with_local {St} (l : Loop) (s : St) (w : World St) :
  is_closed l (with_local s w) = is_closed l w.
Proof. done. Qed.

Lemma is_running_record {St} (l : Loop) (e : event) (w : World St) :
  is_running l (record e w) = is_running l w.
Proof. done. Qed.

Lemma is_running_update_event {St} (l : Loop) ev f (w : World St) :
  is_running l (update_event ev f w) = is_running l w.
Proof. done. Qed.

Lemma is_running_with_local {St} (l : Loop) (s : St) (w : World St) :
  is_running l (with_local s w) = is_running l w.
Proof. done. Qed.

Lemma w_running_with_local {St} (s : St) (w : World St) :
  w_running (with_local s w) = w_running w.
Proof. done. Qed.

#[global] Hint Rewrite @event_obj_update @event_obj_record @event_obj_with_ready
  @event_obj_with_closed @event_obj_with_local @event_obj_with_next_thread
  @is_closed_record @is_closed_update_event @is_closed_with_local
  @is_running_record @is_running_update_event @is_running_with_local
  @w_running_with_local : frame.


Section LoopState.
Context {St : Type} (P : EventLoopPolicy St).

(** [asyncio.get_event_loop()] and [ensure_event_loop] read the policy's
    state and the running loops, and nothing else of the world. *)

Lemma asyncio_get_event_loop_frame (t : nat) (w w' : World St) :
  w_local w' = w_local w →
  w_running w' !! t = w_running w !! t →
  asyncio_get_event_loop P t w'
  = ((asyncio_get_event_loop P t w).1,
     with_local (w_local (asyncio_get_event_loop P t w).2) w').
Proof.
  intros Hl Hr. unfold asyncio_get_event_loop. rewrite Hl, Hr.
  destruct (w_running w !! t); cbn.
  - by rewrite <- Hl, with_local_id.
  - by destruct (pol_get_event_loop P t (w_local w)) as [[e|l] s].
Qed.

Lemma ensure_event_loop_frame (t : nat) (w w' : World St) :
  w_local w' = w_local w →
  w_running w' !! t = w_running w !! t →
  ensure_event_loop P t w'
  = ((ensure_event_loop P t w).1,
     with_local (w_local (ensure_event_loop P t w).2) w').
Proof.
  intros Hl Hr. unfold ensure_event_loop, try_except.
  rewrite (asyncio_get_event_loop_frame t w w' Hl Hr).
  destruct (asyncio_get_event_loop_local P t w) as [s Hs].
  destruct (asyncio_get_event_loop P t w) as [[l|e| |] w1]; cbn in *;
    subst w1; cbn; try done.
  destruct (isinstance e RuntimeError); [|done].
  destruct (contains no_current_loop (exn_str e)); [|done].
  unfold mbind, M_bind, bind, new_file_event_loop, asyncio_new_event_loop,
    asyncio_set_event_loop. cbn.
  by destruct (pol_new_event_loop P s).
Qed.

(** Under a lawful policy, the loop [ensure_event_loop] returned is what
    [asyncio.get_event_loop()] gives next. *)
Lemma ensure_event_loop_then_get (HP : PolicyLaws P) (t : nat) (w : World St)
    (l : Loop) (w1 : World St) :
  ensure_event_loop P t w = (Return l, w1) →
  asyncio_get_event_loop P t w1 = (Return l, w1).
Proof.
  intros H. unfold asyncio_get_event_loop.
  destruct (w_running w !! t) as [l0|] eqn:Hr.
  { rewrite (ensure_event_loop_running P t w l0 Hr) in H.
    injection H as <- <-. by rewrite Hr. }
  destruct (pol_get_event_loop P t (w_local w)) as [[e|l0] s] eqn:Hg.
  - assert (Hget : asyncio_get_event_loop P t w = (Raise e, with_local s w)).
    { unfold asyncio_get_event_loop. by rewrite Hr, Hg. }
    rewrite (ensure_event_loop_get_raises P t w e _ Hget) in H.
    destruct (isinstance e RuntimeError && contains no_current_loop (exn_str e));
      [|done].
    injection H as <- <-. cbn. rewrite Hr. by rewrite (get_bound P HP).
  - rewrite (ensure_event_loop_bound P t w l0 s Hr Hg) in H.
    injection H as <- <-. cbn. rewrite Hr.
    by rewrite (get_stable P HP t _ _ _ Hg).
Qed.

#[local] Arguments record : simpl never.
#[local] Arguments update_event : simpl never.
#[local] Arguments event_obj : simpl never.
#[local] Arguments with_closed : simpl never.
#[local] Arguments with_local : simpl never.
#[local] Arguments is_closed : simpl never.
#[local] Arguments is_running : simpl never.

(** The background thread, on a thread of its own with an idle and open
    loop, leaves on the completion signal what [completion] says. *)
Lemma _run_completion (fin : nat) (c : coroutine) (th : nat) (w : World St)
    (loop : Loop) (w1 : World St) :
  ensure_event_loop P th w = (Return loop, w1) →
  asyncio_get_event_loop P th w1 = (Return loop, w1) →
  w_running w !! th = None →
  is_running loop w = false →
  is_closed loop w = false →
  event_obj fin (_run P fin c th w).2 = completion c (event_obj fin w).
Proof.
  intros He Hg Hr Hrun Hcl.
  destruct (ensure_event_loop_local P th w) as [s Hs]. rewrite He in Hs.
  cbn in Hs. subst w1.
  unfold _run, mbind, M_bind, bind. rewrite He.
  unfold try_except_else_finally, asyncio_ensure_future, mbind, M_bind, bind.
  rewrite Hg. cbn.
  unfold loop_run_until_complete. autorewrite with frame.
  rewrite Hcl, Hrun, Hr. cbn.
  rewrite bool_decide_eq_true_2 by done.
  destruct c as [v|e| |]; cbn; [|destruct (isinstance e Exception); cbn|..];
    unfold loop_close; cbn; autorewrite with frame;
    rewrite ?Hrun, ?Hcl; cbn; by autorewrite with frame.
Qed.


End LoopState.

Section Outcomes.
Context {St : Type} (P : EventLoopPolicy St).

(** Projections of updated worlds. *)
Ltac norm_world :=
  cbn [w_local w_system w_running w_closed w_ready w_tasks w_current
       w_faults w_events w_next_event w_next_thread w_trace record
       with_local with_closed with_ready with_faults with_events
       with_next_event with_next_thread with_trace].

Lemma with_local_idem (s s' : St) (w : World St) :
  with_local s (with_local s' w) = with_local s w.
Proof. done. Qed.

Lemma bind_return {A B} (m : M St A) (k : A → M St B) (t : nat)
    (w : World St) (a : A) (w' : World St) :
  m t w = (Return a, w') → (m ≫= k) t w = k a t w'.
Proof. intros H. unfold mbind, M_bind, bind. by rewrite H. Qed.

Lemma bind_blocked {A B} (m : M St A) (k : A → M St B) (t : nat)
    (w w' : World St) :
  m t w = (Blocked, w') → (m ≫= k) t w = (Blocked, w').
Proof. intros H. unfold mbind, M_bind, bind. by rewrite H. Qed.

Lemma bind_raise {A B} (m : M St A) (k : A → M St B) (t : nat)
    (w w' : World St) (e : exn) :
  m t w = (Raise e, w') → (m ≫= k) t w = (Raise e, w').
Proof. intros H. unfold mbind, M_bind, bind. by rewrite H. Qed.

Lemma bind_out_of_fuel {A B} (m : M St A) (k : A → M St B) (t : nat)
    (w w' : World St) :
  m t w = (OutOfFuel, w') → (m ≫= k) t w = (OutOfFuel, w').
Proof. intros H. unfold mbind, M_bind, bind. by rewrite H. Qed.

Lemma call_await (f : pyfunc) (args : list value) (kw : kwargs) (t : nat)
    (w : World St) :
  (call f args kw ≫= await) t w = (await_call f args kw, w).
Proof.
  unfold mbind, M_bind, bind, call, await_call.
  by destruct (f args kw) as [e|[v|e| |]].
Qed.

Lemma threading_wait_flag (ev t : nat) (w : World St) :
  threading_wait ev t w
  = (if ev_flag (event_obj ev w) then Return true else Blocked, w).
Proof. unfold threading_wait. by destruct (ev_flag (event_obj ev w)). Qed.

Lemma getattr_lookup (ev : nat) (name : string) (t : nat) (w : World St)
    (v : value) :
  ev_dict (event_obj ev w) !! name = Some v →
  getattr ev name t w = (Return v, w).
Proof. intros H. unfold getattr. by rewrite H. Qed.

(** The isolation path once the decision is taken, from the world [w0]
    in which the wrapper starts to set the thread up. *)
Lemma with_loop_isolated_tail (HP : PolicyLaws P) (func : pyfunc)
    (args : list value) (kw : kwargs) (t : nat) (w0 : World St)
    (c : coroutine) (loop' : Loop) (w2 : World St) :
  func args kw = inr c →
  ensure_event_loop P (w_next_thread w0) w0 = (Return loop', w2) →
  w_running w0 !! w_next_thread w0 = None →
  is_running loop' w0 = false →
  is_closed loop' w0 = false →
  ((_L_debug "Execute new loop in background thread.";;
    finished ← Event_new;
    generator ← call func args kw;
    Thread_start (_run P finished generator);;
    threading_wait finished;;
    error ← getattr finished "error";
    if bool_decide (error ≠ VNone) then raise_value error
    else getattr finished "result") t w0).1
  = match c with
    | Return v => Return v
    | Raise e => if isinstance e Exception then Raise e else Blocked
    | _ => Blocked
    end.
Proof.
  intros Hf Heth Hrth Hrun' Hcl'.
  erewrite bind_return; [|reflexivity]. lazy beta.
  erewrite bind_return; [|reflexivity]. lazy beta.
  erewrite bind_return; [|unfold call; rewrite Hf; reflexivity]. lazy beta.
  erewrite bind_return; [|reflexivity]. lazy beta.
  norm_world.
  match goal with
  | |- context [_run P _ c _ ?W0] => set (W := W0)
  end.
  assert (HeW : ensure_event_loop P (w_next_thread w0) W
                = (Return loop', with_local (w_local w2) W)).
  { rewrite (ensure_event_loop_frame P (w_next_thread w0) w0 W
               eq_refl eq_refl).
    by rewrite Heth. }
  assert (HgW : asyncio_get_event_loop P (w_next_thread w0)
                  (with_local (w_local w2) W)
                = (Return loop', with_local (w_local w2) W)).
  { rewrite (asyncio_get_event_loop_frame P (w_next_thread w0) w2
               (with_local (w_local w2) W) eq_refl).
    - rewrite (ensure_event_loop_then_get P HP _ _ _ _ Heth).
      cbn [fst snd]. by rewrite with_local_idem.
    - destruct (ensure_event_loop_local P (w_next_thread w0) w0) as [s Hs].
      rewrite Heth in Hs. cbn in Hs. by subst w2. }
  assert (HW : event_obj (w_next_event w0) W = fresh_event).
  { unfold event_obj, W. norm_world. by rewrite lookup_insert_eq. }
  pose proof (_run_completion P (w_next_event w0) c (w_next_thread w0) W
                loop' _ HeW HgW Hrth Hrun' Hcl') as HW'.
  rewrite HW in HW'. clear HW HeW HgW.
  set (Wf := (_run P (w_next_event w0) c (w_next_thread w0) W).2) in *.
  clearbody Wf. clear W.
  unfold mbind at 1, M_bind, bind. rewrite threading_wait_flag, HW'.
  destruct c as [v|e| |]; cbn [completion ev_flag ev_dict fresh_event];
    [|destruct (isinstance e Exception) eqn:HE;
      cbn [completion ev_flag ev_dict fresh_event]|..];
    try reflexivity.
  - erewrite bind_return;
      [|apply getattr_lookup; rewrite HW'; cbn [completion ev_dict];
        apply lookup_insert_eq].
    lazy beta. rewrite bool_decide_eq_false_2 by (by intros []).
    erewrite getattr_lookup; [done|]. rewrite HW'. cbn [completion ev_dict].
    rewrite lookup_insert_ne by done. apply lookup_insert_eq.
  - erewrite bind_return;
      [|apply getattr_lookup; rewrite HW'; cbn [completion ev_dict];
        rewrite HE; cbn [ev_dict]; apply lookup_insert_eq].
    lazy beta. by rewrite bool_decide_eq_true_2.
Qed.

(** X1: when the wrapper of [with_loop] isolates the call (the caller's
    loop is running, or the platform is Windows and the loop is a selector
    loop) and the new thread gets an idle and open loop, the caller gets the
    value the coroutine returns and the [Exception] it raises; a failure that
    is not an [Exception], and a coroutine that never ends, leave the caller
    blocked. *)
Theorem with_loop_isolated_outcome (HP : PolicyLaws P) (func : pyfunc)
    (args : list value) (kw : kwargs) (t : nat) (w : World St) (loop : Loop)
    (w1 : World St) (c : coroutine) (loop' : Loop) (w2 : World St) :
  ensure_event_loop P t w = (Return loop, w1) →
  is_running loop w1 = true
  ∨ (is_running loop w1 = false ∧ w_system w1 = "Windows"
     ∧ loop_type loop = SelectorEventLoop) →
  func args kw = inr c →
  ensure_event_loop P (w_next_thread w1) w1 = (Return loop', w2) →
  w_running w1 !! w_next_thread w1 = None →
  is_running loop' w1 = false →
  is_closed loop' w1 = false →
  (with_loop P func args kw t w).1
  = match c with
    | Return v => Return v
    | Raise e => if isinstance e Exception then Raise e else Blocked
    | _ => Blocked
    end.
Proof.
  intros He Hwhy Hf Heth Hrth Hrun' Hcl'.
  unfold with_loop.
  rewrite (bind_return _ _ t w loop w1 He). lazy beta.
  destruct Hwhy as [Hrun|(Hrun & Hsys & Hty)].
  - erewrite bind_return;
      [|unfold loop_is_running; rewrite Hrun; reflexivity]. lazy beta iota.
    erewrite bind_return; [|reflexivity]. lazy beta iota.
    eapply (with_loop_isolated_tail HP func args kw t _ c loop');
      [exact Hf| |exact Hrth|exact Hrun'|exact Hcl'].
    norm_world.
    match goal with
    | |- ensure_event_loop P _ ?W0 = _ =>
        rewrite (ensure_event_loop_frame P (w_next_thread w1) w1 W0
                   eq_refl eq_refl)
    end.
    rewrite Heth. reflexivity.
  - erewrite bind_return;
      [|unfold loop_is_running; rewrite Hrun; reflexivity]. lazy beta iota.
    erewrite bind_return;
      [|unfold mbind, M_bind, bind, platform_system,
          asyncio_ProactorEventLoop;
        rewrite Hsys, Hty; reflexivity].
    lazy beta iota.
    eapply (with_loop_isolated_tail HP func args kw t _ c loop');
      [exact Hf| |exact Hrth|exact Hrun'|exact Hcl'].
    norm_world.
    match goal with
    | |- ensure_event_loop P _ ?W0 = _ =>
        rewrite (ensure_event_loop_frame P (w_next_thread w1) w1 W0
                   eq_refl eq_refl)
    end.
    rewrite Heth. reflexivity.
Qed.

(** X2: on the direct path (Windows, an idle and open proactor loop) the
    wrapper of [with_loop] gives what awaiting the function called on the
    keyword arguments alone gives, whatever the positional arguments. *)
Theorem with_loop_direct_outcome (func : pyfunc) (args : list value)
    (kw : kwargs) (t : nat) (w : World St) (loop : Loop) (w1 : World St) :
  ensure_event_loop P t w = (Return loop, w1) →
  is_running loop w1 = false →
  w_system w1 = "Windows" →
  loop_type loop = ProactorEventLoop →
  is_closed loop w1 = false →
  w_running w1 !! t = None →
  (with_loop P func args kw t w).1 = await_call func [] kw.
Proof.
  intros He Hrun Hsys Hty Hcl Hrt.
  unfold with_loop.
  rewrite (bind_return _ _ t w loop w1 He). lazy beta.
  erewrite bind_return;
    [|unfold loop_is_running; rewrite Hrun; reflexivity]. lazy beta iota.
  erewrite bind_return;
    [|unfold mbind, M_bind, bind, platform_system, asyncio_ProactorEventLoop;
      rewrite Hsys, Hty; reflexivity].
  lazy beta iota.
  erewrite bind_return; [|reflexivity]. lazy beta.
  unfold await_call, call, mbind, M_bind, bind.
  destruct (func [] kw) as [e|c]; [done|].
  unfold mret, M_ret, ret, loop_run_until_complete.
  change (is_closed loop (record _ w1)) with (is_closed loop w1).
  change (is_running loop (record _ w1)) with (is_running loop w1).
  change (w_running (record _ w1)) with (w_running w1).
  rewrite Hcl, Hrun, Hrt. cbn [bool_decide]. 
  rewrite bool_decide_eq_false_2 by (by intros [? ?]).
  by destruct c.
Qed.

(** X3: a call of a cancellable wrapper, on a thread whose loop is idle
    and open, gives what awaiting the wrapped function gives. *)
Theorem cancellable_wrapped_outcome (st : nat) (f : pyfunc)
    (args : list value) (kw : kwargs) (t : nat) (w : World St) (loop : Loop)
    (w1 : World St) :
  ensure_event_loop P t w = (Return loop, w1) →
  is_running loop w = false →
  is_closed loop w = false →
  w_running w !! t = None →
  (cancellable_wrapped P st f args kw t w).1 = await_call f args kw.
Proof.
  intros He Hrun Hcl Hrt.
  unfold cancellable_wrapped.
  erewrite bind_return; [|reflexivity]. lazy beta.
  destruct (ensure_event_loop_local P t w) as [s Hs]. rewrite He in Hs.
  cbn in Hs. subst w1.
  erewrite bind_return.
  2:{ match goal with
      | |- ensure_event_loop P t ?W0 = _ =>
          rewrite (ensure_event_loop_frame P t w W0 eq_refl eq_refl)
      end.
      rewrite He. reflexivity. }
  lazy beta.
  erewrite bind_return; [|reflexivity]. lazy beta.
  erewrite bind_return; [|reflexivity]. lazy beta.
  erewrite bind_return.
  2:{ unfold getattr_loop.
      erewrite bind_return;
        [|apply getattr_lookup; autorewrite with frame; cbn [ev_dict];
          apply lookup_insert_eq].
      reflexivity. }
  lazy beta.
  unfold await_call, call, mbind, M_bind, bind.
  destruct (f args kw) as [e|c]; [done|].
  unfold mret, M_ret, ret, loop_run_until_complete.
  autorewrite with frame. 
  match goal with
  | |- context [w_running ?W !! t] => change (w_running W) with (w_running w)
  end.
  rewrite Hcl, Hrun, Hrt.
  rewrite bool_decide_eq_false_2 by (by intros [? ?]).
  by destruct c.
Qed.


(** The callbacks of a loop leave the attributes of every signal alone,
    and a queue that ends with [done.set] leaves the flag of [done] up. *)
Lemma _cancel_sweep_events (fuel : nat) (loop' : Loop) (cur : option nat)
    (t : nat) (w : World St) :
  w_events (_cancel_sweep fuel loop' cur t w).2 = w_events w.
Proof.
  revert w. induction fuel as [|fuel IH]; intros w; [done|].
  cbn [_cancel_sweep]. unfold try_except, mbind, M_bind, bind, Task_all_tasks.
  destruct (w_faults w) as [|e rest]; [done|]. cbn [fst snd].
  destruct (isinstance e RuntimeError); [|done].
  unfold _L_debug, emit. by rewrite IH.
Qed.

Lemma _cancel_events (fuel t : nat) (w : World St) :
  w_events (_cancel P fuel t w).2 = w_events w.
Proof.
  unfold _cancel, mbind, M_bind, bind.
  destruct (ensure_event_loop_local P t w) as [s Hs].
  destruct (ensure_event_loop P t w) as [[l|e| |] w1]; cbn in Hs; subst w1;
    try done.
  unfold Task_current_task.
  pose proof (_cancel_sweep_events fuel l (w_current (with_local s w) !! loop_id l)
                t (with_local s w)) as Hsw.
  destruct (_cancel_sweep fuel l _ t (with_local s w)) as [[tasks|e| |] w2];
    cbn in Hsw; try done.
  by rewrite for_each_task_cancel.
Qed.

Lemma run_callback_signal (cb : callback) (ev t : nat) (w : World St) :
  ev_dict (event_obj ev (run_callback P cb t w).2) = ev_dict (event_obj ev w).
Proof.
  destruct cb as [ev'|]; cbn [run_callback].
  - unfold Event_set. cbn [snd]. rewrite event_obj_record.
    destruct (decide (ev' = ev)) as [->|Hne].
    + by rewrite event_obj_update.
    + unfold event_obj, update_event. cbn [w_events with_events].
      by rewrite lookup_insert_ne.
  - unfold event_obj. by rewrite _cancel_events.
Qed.

Lemma run_handles_sets (done : nat) (q : list callback) (t : nat)
    (w : World St) :
  ev_flag (event_obj done
             (run_handles P (q ++ [CbEventSet done]) t w).2) = true
  ∧ ev_dict (event_obj done
               (run_handles P (q ++ [CbEventSet done]) t w).2)
    = ev_dict (event_obj done w).
Proof.
  revert w. induction q as [|cb q IH]; intros w.
  - cbn. unfold event_obj. cbn. by rewrite lookup_insert_eq.
  - cbn [app run_handles]. destruct (IH (run_callback P cb t w).2) as [H1 H2].
    split; [done|]. by rewrite H2, run_callback_signal.
Qed.


End Outcomes.

(** The witness of X1: the identity coroutine called from inside the
    running loop of the main thread. *)
Lemma with_loop_isolated_outcome_witness :
  (with_loop default_policy foo [VStr "hello"] ∅ MainThread
     (serving "Linux" SelectorEventLoop)).1
  = Return (VStr "hello").
Proof.
  apply (with_loop_isolated_outcome default_policy default_policy_laws foo
           [VStr "hello"] ∅ MainThread (serving "Linux" SelectorEventLoop)
           (MkLoop 0 SelectorEventLoop) (serving "Linux" SelectorEventLoop)
           (Return (VStr "hello")) (MkLoop 1 SelectorEventLoop)
           (ensure_event_loop default_policy 1
              (serving "Linux" SelectorEventLoop)).2).
  - vm_compute. reflexivity.
  - left. vm_compute. reflexivity.
  - vm_compute. reflexivity.
  - vm_compute. reflexivity.
  - vm_compute. reflexivity.
  - vm_compute. reflexivity.
  - vm_compute. reflexivity.
Defined.

(** The witness of X2: the identity coroutine given its argument by
    keyword. *)
Lemma with_loop_direct_outcome_witness :
  (with_loop default_policy foo [] {["a_" := VStr "hello"]} MainThread
     (boot "Windows" ProactorEventLoop)).1
  = await_call foo [] {["a_" := VStr "hello"]}.
Proof.
  apply (with_loop_direct_outcome default_policy foo []
           {["a_" := VStr "hello"]} MainThread
           (boot "Windows" ProactorEventLoop) (MkLoop 0 ProactorEventLoop)
           (ensure_event_loop default_policy MainThread
              (boot "Windows" ProactorEventLoop)).2);
    vm_compute; reflexivity.
Defined.

(** The witness of X3: the identity coroutine under [cancellable], called
    on a worker thread. *)
Lemma cancellable_wrapped_outcome_witness :
  (cancellable_wrapped default_policy 0 foo [VInt 1] ∅ 1
     (boot "Linux" SelectorEventLoop)).1
  = await_call foo [VInt 1] ∅.
Proof.
  apply (cancellable_wrapped_outcome default_policy 0 foo [VInt 1] ∅ 1
           (boot "Linux" SelectorEventLoop) (MkLoop 0 SelectorEventLoop)
           (ensure_event_loop default_policy 1
              (boot "Linux" SelectorEventLoop)).2);
    vm_compute; reflexivity.
Defined.


(** ** More on what the calls do *)

Section Calls.
Context {St : Type} (P : EventLoopPolicy St).

Ltac norm_world :=
  cbn [w_local w_system w_running w_closed w_ready w_tasks w_current
       w_faults w_events w_next_event w_next_thread w_trace record
       with_local with_closed with_ready with_faults with_events
       with_next_event with_next_thread with_trace].

(** *** [with_loop]: the decision and the call of the function *)

(** X5: off Windows, a call of the wrapper of [with_loop] on a thread
    whose loop is not running raises the [AttributeError] of the missing
    [asyncio.ProactorEventLoop], whatever the function and its arguments:
    the function is not called and nothing is done beyond what
    [ensure_event_loop] did. *)
Theorem with_loop_idle_needs_windows (func : pyfunc) (args : list value)
    (kw : kwargs) (t : nat) (w : World St) (loop : Loop) (w1 : World St) :
  ensure_event_loop P t w = (Return loop, w1) →
  is_running loop w1 = false →
  w_system w1 ≠ "Windows" →
  with_loop P func args kw t w
  = (Raise (Exn AttributeError
              "module 'asyncio' has no attribute 'ProactorEventLoop'"), w1).
Proof.
  intros He Hrun Hsys. unfold with_loop.
  rewrite (bind_return _ _ t w loop w1 He). lazy beta.
  erewrite bind_return;
    [|unfold loop_is_running; rewrite Hrun; reflexivity]. lazy beta iota.
  erewrite bind_raise; [reflexivity|].
  erewrite bind_return; [|reflexivity]. lazy beta.
  erewrite bind_raise; [reflexivity|].
  unfold asyncio_ProactorEventLoop.
  by rewrite bool_decide_eq_false_2.
Qed.


(** X6: on the isolation path, when the call of the function itself
    raises (arguments that do not fit), the wrapper raises that exception in
    the caller: the completion signal has been created by then, but no
    thread is started and no loop is run. *)
Theorem with_loop_isolated_call_raises (func : pyfunc) (args : list value)
    (kw : kwargs) (t : nat) (w : World St) (loop : Loop) (w1 : World St)
    (e : exn) :
  ensure_event_loop P t w = (Return loop, w1) →
  is_running loop w1 = true
  ∨ (is_running loop w1 = false ∧ w_system w1 = "Windows"
     ∧ loop_type loop = SelectorEventLoop) →
  func args kw = inl e →
  (with_loop P func args kw t w).1 = Raise e
  ∧ w_next_thread (with_loop P func args kw t w).2 = w_next_thread w
  ∧ ∃ msg,
      since w (with_loop P func args kw t w).2
      = [EvLog msg; EvLog "Execute new loop in background thread.";
         EvNew (w_next_event w)].
Proof.
  intros He Hwhy Hf.
  destruct (ensure_event_loop_local P t w) as [s Hs]. rewrite He in Hs.
  cbn in Hs. subst w1.
  unfold with_loop.
  rewrite (bind_return _ _ t w loop _ He). lazy beta.
  destruct Hwhy as [Hrun|(Hrun & Hsys & Hty)].
  - erewrite bind_return;
      [|unfold loop_is_running; rewrite Hrun; reflexivity]. lazy beta iota.
    erewrite bind_return; [|reflexivity]. lazy beta iota.
    erewrite bind_return; [|reflexivity]. lazy beta.
    erewrite bind_return; [|reflexivity]. lazy beta.
    erewrite bind_raise; [|unfold call; rewrite Hf; reflexivity].
    split; [done|]. split; [done|]. eexists.
    by apply (since_app w _ [_; _; _]).
  - erewrite bind_return;
      [|unfold loop_is_running; rewrite Hrun; reflexivity]. lazy beta iota.
    erewrite bind_return;
      [|unfold mbind, M_bind, bind, platform_system,
          asyncio_ProactorEventLoop;
        rewrite Hsys, Hty; reflexivity].
    lazy beta iota.
    erewrite bind_return; [|reflexivity]. lazy beta.
    erewrite bind_return; [|reflexivity]. lazy beta.
    erewrite bind_raise; [|unfold call; rewrite Hf; reflexivity].
    split; [done|]. split; [done|]. eexists.
    by apply (since_app w _ [_; _; _]).
Qed.


(** *** The wrapper of [cancellable] and its signal *)

Lemma running_is_running (t : nat) (w : World St) (l : Loop) :
  w_running w !! t = Some l → is_running l w = true.
Proof.
  intros H. unfold is_running. apply bool_decide_eq_true_2.
  apply list_elem_of_fmap. exists (t, l). split; [done|].
  by apply elem_of_map_to_list.
Qed.

Lemma ensure_event_loop_idle_thread (t : nat) (w : World St) (loop : Loop)
    (w1 : World St) :
  ensure_event_loop P t w = (Return loop, w1) →
  is_running loop w = false →
  w_running w !! t = None.
Proof.
  intros He Hrun. destruct (w_running w !! t) as [l|] eqn:Hr; [|done].
  rewrite (ensure_event_loop_running P t w l Hr) in He.
  injection He as <- <-. by rewrite (running_is_running t w l Hr) in Hrun.
Qed.

(** The wrapper of [cancellable] up to the call of the wrapped function:
    the world [W] in which the function is called. *)
Lemma cancellable_wrapped_prefix (st : nat) (f : pyfunc) (args : list value)
    (kw : kwargs) (t : nat) (w : World St) (loop : Loop) (w1 : World St) :
  ensure_event_loop P t w = (Return loop, w1) →
  ∃ W,
    cancellable_wrapped P st f args kw t w
    = (c ← call f args kw; loop_run_until_complete loop (Coro c)) t W
    ∧ event_obj st W
      = MkEvent true (<["loop" := VLoop loop]> (ev_dict (event_obj st w)))
    ∧ w_closed W = w_closed w
    ∧ w_running W = w_running w
    ∧ w_ready W = w_ready w.
Proof.
  intros He.
  destruct (ensure_event_loop_local P t w) as [s Hs]. rewrite He in Hs.
  cbn in Hs. subst w1.
  eexists. split.
  - unfold cancellable_wrapped.
    erewrite bind_return; [|reflexivity]. lazy beta.
    erewrite bind_return.
    2:{ match goal with
        | |- ensure_event_loop P t ?W0 = _ =>
            rewrite (ensure_event_loop_frame P t w W0 eq_refl eq_refl)
        end.
        rewrite He. reflexivity. }
    lazy beta.
    erewrite bind_return; [|reflexivity]. lazy beta.
    erewrite bind_return; [|reflexivity]. lazy beta.
    erewrite bind_return.
    2:{ unfold getattr_loop.
        erewrite bind_return;
          [|apply getattr_lookup; autorewrite with frame; cbn [ev_dict];
            apply lookup_insert_eq].
        reflexivity. }
    lazy beta. reflexivity.
  - split; [|done]. autorewrite with frame. by cbn [ev_flag ev_dict].
Qed.

(** Calling the function and driving its coroutine changes no signal, no
    queue and no closed loop. *)
Lemma call_run_frame (f : pyfunc) (args : list value) (kw : kwargs)
    (loop : Loop) (t : nat) (W : World St) :
  w_events ((c ← call f args kw; loop_run_until_complete loop (Coro c)) t W).2
  = w_events W
  ∧ w_closed ((c ← call f args kw; loop_run_until_complete loop (Coro c)) t W).2
    = w_closed W
  ∧ w_ready ((c ← call f args kw; loop_run_until_complete loop (Coro c)) t W).2
    = w_ready W.
Proof.
  unfold call, mbind, M_bind, bind, loop_run_until_complete.
  destruct (f args kw) as [e|c]; [done|]. cbn.
  destruct (is_closed loop W); [done|].
  destruct (is_running loop W); [done|].
  destruct (bool_decide _); [done|]. by destruct c.
Qed.

(** X10: a call of a cancellable wrapper that got its loop leaves the
    started signal raised with that loop attached, whatever the call then
    returns or raises; a call whose [ensure_event_loop] raises passes the
    exception on and leaves the flag of the signal down. *)
Theorem cancellable_wrapped_signal (st : nat) (f : pyfunc)
    (args : list value) (kw : kwargs) (t : nat) (w : World St) :
  (∀ loop w1,
     ensure_event_loop P t w = (Return loop, w1) →
     event_obj st (cancellable_wrapped P st f args kw t w).2
     = MkEvent true (<["loop" := VLoop loop]> (ev_dict (event_obj st w))))
  ∧ (∀ e w1,
       ensure_event_loop P t w = (Raise e, w1) →
       (cancellable_wrapped P st f args kw t w).1 = Raise e
       ∧ event_obj st (cancellable_wrapped P st f args kw t w).2
         = MkEvent false (ev_dict (event_obj st w))).
Proof.
  split.
  - intros loop w1 He.
    destruct (cancellable_wrapped_prefix st f args kw t w loop w1 He)
      as (W & -> & HW & _).
    destruct (call_run_frame f args kw loop t W) as (Hev & _).
    unfold event_obj in *. by rewrite Hev.
  - intros e w1 He.
    destruct (ensure_event_loop_local P t w) as [s Hs]. rewrite He in Hs.
    cbn in Hs. subst w1.
    unfold cancellable_wrapped.
    erewrite bind_return; [|reflexivity]. lazy beta.
    erewrite bind_raise.
    2:{ match goal with
        | |- ensure_event_loop P t ?W0 = _ =>
            rewrite (ensure_event_loop_frame P t w W0 eq_refl eq_refl)
        end.
        rewrite He. reflexivity. }
    split; [done|]. cbn [snd]. by autorewrite with frame.
Qed.

(** X9: what a call of a cancellable wrapper gives, for the loop [loop]
    of its thread: the exception of the call of [f] when that raises;
    otherwise the [RuntimeError] of [run_until_complete] when the loop is
    closed, or when it is running; otherwise what the coroutine gives. *)
Theorem cancellable_wrapped_result (st : nat) (f : pyfunc)
    (args : list value) (kw : kwargs) (t : nat) (w : World St) (loop : Loop)
    (w1 : World St) :
  ensure_event_loop P t w = (Return loop, w1) →
  (cancellable_wrapped P st f args kw t w).1
  = match f args kw with
    | inl e => Raise e
    | inr c =>
        if is_closed loop w then Raise (Exn RuntimeError "Event loop is closed")
        else if is_running loop w then
          Raise (Exn RuntimeError "This event loop is already running")
        else c
    end.
Proof.
  intros He.
  destruct (cancellable_wrapped_prefix st f args kw t w loop w1 He)
    as (W & -> & _ & Hcl & Hrun & _).
  unfold call, mbind, M_bind, bind, loop_run_until_complete.
  destruct (f args kw) as [e|c]; [done|]. cbn [mret M_ret ret].
  unfold is_closed, is_running. rewrite Hcl, Hrun.
  fold (is_closed loop w). fold (is_running loop w).
  destruct (is_closed loop w); [done|].
  destruct (is_running loop w) eqn:Hr; [done|].
  rewrite (ensure_event_loop_idle_thread t w loop w1 He Hr).
  rewrite bool_decide_eq_false_2 by (by intros [? ?]).
  by destruct c.
Qed.


Lemma cancellable_eq (f : pyfunc) (t0 : nat) (w0 : World St) :
  cancellable P f t0 w0
  = (Return
       {| _wrapped := cancellable_wrapped P (w_next_event w0) f;
          started := w_next_event w0;
          cancel := cancellable_cancel (w_next_event w0) |},
     (Event_new t0 w0).2).
Proof. reflexivity. Qed.

(** X11: once a call of the wrapper has got its loop, [cancel()] no
    longer raises the [AttributeError] of the idle state, also after the
    call has ended: it appends [_cancel] to the ready queue of that call's
    loop, or raises the [RuntimeError] of [call_soon_threadsafe] when that
    loop is closed. *)
Theorem cancel_after_call (f : pyfunc) (t0 : nat) (w0 : World St) :
  match cancellable P f t0 w0 with
  | (Return h, _) =>
      ∀ args kw t w loop w1 t',
        ensure_event_loop P t w = (Return loop, w1) →
        (is_closed loop w = false →
         (cancel h t' (_wrapped h args kw t w).2).1 = Return ()
         ∧ w_ready (cancel h t' (_wrapped h args kw t w).2).2 !! loop_id loop
           = Some (default [] (w_ready w !! loop_id loop) ++ [CbCancel])%list)
        ∧ (is_closed loop w = true →
           (cancel h t' (_wrapped h args kw t w).2).1
           = Raise (Exn RuntimeError "Event loop is closed"))
  | _ => False
  end.
Proof.
  rewrite cancellable_eq. cbn [_wrapped cancel].
  intros args kw t w loop w1 t' He.
  set (st := w_next_event w0).
  destruct (cancellable_wrapped_prefix st f args kw t w loop w1 He)
    as (W & -> & HW & Hcl & _ & Hq).
  destruct (call_run_frame f args kw loop t W) as (Hev & Hcl' & Hq').
  set (W' := ((c ← call f args kw; loop_run_until_complete loop (Coro c)) t W).2)
    in *.
  assert (Hloop : ev_dict (event_obj st W') !! "loop" = Some (VLoop loop)).
  { unfold event_obj in *. rewrite Hev, HW. cbn. apply lookup_insert_eq. }
  assert (Hc : is_closed loop W' = is_closed loop w).
  { unfold is_closed. by rewrite Hcl', Hcl. }
  clearbody W'. split.
  - intros Hopen. rewrite <- Hc in Hopen.
    rewrite (cancellable_cancel_queues st t' W' loop Hloop Hopen).
    split; [done|]. cbn. rewrite lookup_insert_eq. by rewrite Hq', Hq.
  - intros Hclosed. rewrite <- Hc in Hclosed.
    unfold cancellable_cancel, getattr_loop, getattr, mbind, M_bind, bind,
      loop_call_soon_threadsafe.
    rewrite Hloop. cbn. by rewrite Hclosed.
Qed.

(** *** The sweep of [_cancel] *)

Lemma _cancel_sweep_gives_up (loop : Loop) (cur : option nat) :
  ∀ rs fuel t (w : World St) e rest,
    w_faults w = (rs ++ e :: rest)%list →
    Forall (λ e, isinstance e RuntimeError = true) rs →
    isinstance e RuntimeError = false →
    length rs < fuel →
    _cancel_sweep fuel loop cur t w
    = (Raise e,
       with_trace (rev (retry_log <$> rs) ++ w_trace w)%list
         (with_faults rest w)).
Proof.
  induction rs as [|r rs IH]; intros fuel t w e rest Hw Hall He Hfuel;
    (destruct fuel as [|fuel]; [cbn in Hfuel; lia|]); cbn.
  - unfold try_except, mbind, M_bind, bind, Task_all_tasks. rewrite Hw.
    cbn. rewrite He. destruct w; cbn in *. by subst.
  - unfold try_except, mbind, M_bind, bind, Task_all_tasks. rewrite Hw.
    cbn. inversion Hall as [|? ? Hr Hrest]; subst. rewrite Hr.
    unfold _L_debug, emit. cbn.
    erewrite IH; [|reflexivity|exact Hrest|exact He|cbn in Hfuel; lia].
    cbn. by rewrite <- app_assoc.
Qed.

(** X12: [_cancel] retries the enumeration after a [RuntimeError] only:
    the first failure of another class is raised, after the earlier ones
    were logged, and no task is cancelled. *)
Theorem cancel_retries_only_RuntimeError (fuel t : nat) (w : World St)
    (loop : Loop) (w1 : World St) (rs : list exn) (e : exn)
    (rest : list exn) :
  ensure_event_loop P t w = (Return loop, w1) →
  w_faults w = (rs ++ e :: rest)%list →
  Forall (λ e, isinstance e RuntimeError = true) rs →
  isinstance e RuntimeError = false →
  length rs < fuel →
  (_cancel P fuel t w).1 = Raise e
  ∧ since w (_cancel P fuel t w).2 = retry_log <$> rs
  ∧ w_faults (_cancel P fuel t w).2 = rest.
Proof.
  intros Hen Hw Hall He Hfuel. unfold _cancel, mbind, M_bind, bind.
  rewrite Hen.
  destruct (ensure_event_loop_local P t w) as [s Hs]. rewrite Hen in Hs.
  cbn in Hs. subst w1. cbn.
  erewrite _cancel_sweep_gives_up; [|exact Hw|exact Hall|exact He|exact Hfuel].
  split; [done|]. split; [|done].
  rewrite (since_app w _ (rev (retry_log <$> rs))); [|done].
  apply rev_involutive.
Qed.



(** *** [sync]: a closed loop, and the calls after the first *)

(** The inner [_wrapped] of [sync] when the target returns [r]. *)
Lemma sync_wrapped_returns (loop : Loop) (done : nat) (f : pyfunc)
    (args : list value) (t : nat) (w : World St) (r : value) :
  await_call f args ∅ = Return r →
  sync_wrapped loop done f args t w
  = (loop_call_soon_threadsafe loop (CbEventSet done);; mret (VBool false)) t
      (record (EvSetAttr done "result" r)
         (update_event done
            (λ o, MkEvent (ev_flag o) (<["result" := r]> (ev_dict o))) w)).
Proof.
  intros Hr. unfold sync_wrapped.
  erewrite bind_return; [|rewrite call_await, Hr; reflexivity]. lazy beta.
  erewrite bind_return; [|reflexivity]. reflexivity.
Qed.

(** X14: when the loop a function was bridged for is closed, a call
    whose target returns [r] stores [r] on the signal and then raises the
    [RuntimeError] of [call_soon_threadsafe]: the flag is not touched and
    nothing is queued. *)
Theorem sync_synced_closed_loop (loop : Loop) (done : nat) (f : pyfunc)
    (args : list value) (t : nat) (w : World St) (r : value) :
  await_call f args ∅ = Return r →
  is_closed loop w = true →
  (sync_synced P loop done f args t w).1
  = Raise (Exn RuntimeError "Event loop is closed")
  ∧ event_obj done (sync_synced P loop done f args t w).2
    = MkEvent (ev_flag (event_obj done w))
        (<["result" := r]> (ev_dict (event_obj done w)))
  ∧ w_ready (sync_synced P loop done f args t w).2 = w_ready w.
Proof.
  intros Hr Hcl. unfold sync_synced.
  erewrite bind_raise.
  2:{ rewrite (sync_wrapped_returns loop done f args t w r Hr).
      erewrite bind_raise; [reflexivity|].
      unfold loop_call_soon_threadsafe. autorewrite with frame.
      rewrite Hcl. reflexivity. }
  cbn [fst snd]. split; [done|]. split; [|done].
  by autorewrite with frame.
Qed.

(** X15: a call of a bridged function that returns leaves the flag of
    its signal up; and with the flag up, a call gives what awaiting the
    target gives without waiting, in any thread: its effects are the write of
    the result and the scheduling of [done.set], which has not run when the
    call returns. *)
Theorem sync_waits_for_first_call_only (loop : Loop) (done : nat)
    (f : pyfunc) (args : list value) (t : nat) (w : World St) :
  (∀ r,
     (sync_synced P loop done f args t w).1 = Return r →
     ev_flag (event_obj done (sync_synced P loop done f args t w).2) = true)
  ∧ (ev_flag (event_obj done w) = true →
     is_closed loop w = false →
     (sync_synced P loop done f args t w).1 = await_call f args ∅
     ∧ ∀ r,
         await_call f args ∅ = Return r →
         since w (sync_synced P loop done f args t w).2
         = [EvSetAttr done "result" r; EvCallSoon loop (CbEventSet done)]).
Proof.
  split.
  - intros r. unfold sync_synced, mbind, M_bind, bind.
    destruct (sync_wrapped loop done f args t w) as [[v|e| |] W1];
      try discriminate.
    unfold asyncio_Event_wait.
    destruct (ev_flag (event_obj done W1)) eqn:Hflag.
    + unfold getattr. by destruct (ev_dict (event_obj done W1) !! "result").
    + destruct (w_running W1 !! t) as [l|]; [|discriminate].
      destruct (ev_flag (event_obj done (loop_run_once P l t W1).2))
        eqn:Hflag'; [|discriminate].
      unfold getattr.
      by destruct (ev_dict (event_obj done (loop_run_once P l t W1).2)
                     !! "result").
  - intros Hflag Hcl.
    pose proof (call_await f args ∅ t w) as Hca.
    destruct (await_call f args ∅) as [r|e| |] eqn:Hr.
    2:{ split; [|discriminate]. unfold sync_synced, sync_wrapped.
        erewrite bind_raise; [done|]. erewrite bind_raise; [done|exact Hca]. }
    2:{ split; [|discriminate]. unfold sync_synced, sync_wrapped.
        erewrite bind_blocked; [done|].
        erewrite bind_blocked; [done|exact Hca]. }
    2:{ split; [|discriminate]. unfold sync_synced, sync_wrapped.
        erewrite bind_out_of_fuel; [done|].
        erewrite bind_out_of_fuel; [done|exact Hca]. }
    unfold sync_synced.
    erewrite bind_return.
    2:{ rewrite (sync_wrapped_returns loop done f args t w r Hr).
        erewrite bind_return;
          [|unfold loop_call_soon_threadsafe; autorewrite with frame;
            rewrite Hcl; reflexivity].
        reflexivity. }
    lazy beta.
    erewrite bind_return.
    2:{ unfold asyncio_Event_wait. autorewrite with frame.
        cbn [ev_flag]. rewrite Hflag. reflexivity. }
    lazy beta.
    erewrite getattr_lookup.
    2:{ autorewrite with frame. cbn [ev_dict]. apply lookup_insert_eq. }
    split; [done|]. intros ? [= <-]. cbn [snd].
    by apply (since_app w _ [_; _]).
Qed.


(** *** [with_loop]: the background thread *)

Lemma _run_effects (fin : nat) (c : coroutine) (th : nat) (w : World St)
    (loop : Loop) (w1 : World St) :
  ensure_event_loop P th w = (Return loop, w1) →
  asyncio_get_event_loop P th w1 = (Return loop, w1) →
  w_running w !! th = None →
  is_running loop w = false →
  is_closed loop w = false →
  w_trace (_run P fin c th w).2
  = (rev (run_effects fin loop c) ++ w_trace w)%list
  ∧ is_closed loop (_run P fin c th w).2
    = match c with Return _ | Raise _ => true | _ => false end.
Proof.
  intros He Hg Hr Hrun Hcl.
  destruct (ensure_event_loop_local P th w) as [s Hs]. rewrite He in Hs.
  cbn in Hs. subst w1.
  unfold _run, mbind, M_bind, bind. rewrite He.
  unfold try_except_else_finally, asyncio_ensure_future, mbind, M_bind, bind.
  rewrite Hg. cbn [mret M_ret ret].
  unfold loop_run_until_complete. autorewrite with frame.
  rewrite Hcl, Hrun, Hr. cbn [bool_decide decide_rel].
  rewrite bool_decide_eq_false_2 by (by intros [? ?]).
  rewrite bool_decide_eq_true_2 by done.
  destruct c as [v|e| |]; cbn [run_finally setattr fst snd];
    [|destruct (isinstance e Exception) eqn:HE;
      cbn [run_finally setattr fst snd]|..];
    unfold loop_close, _L_debug, emit, Event_set, run_effects;
    autorewrite with frame; rewrite ?Hrun, ?Hcl, ?HE;
    cbn [fst snd]; autorewrite with frame; rewrite ?Hcl; try done.
  all: split; [reflexivity|];
    unfold is_closed; apply bool_decide_eq_true_2; cbn; set_solver.
Qed.


(** Waiting for the flag and reading the outcome change nothing. *)
Lemma isolated_wait_frame (fin t : nat) (W : World St) :
  ((threading_wait fin;;
    error ← getattr fin "error";
    if bool_decide (error ≠ VNone) then raise_value error
    else getattr fin "result") t W).2 = W.
Proof.
  unfold mbind, M_bind, bind, threading_wait, getattr.
  destruct (ev_flag (event_obj fin W)); [|done].
  destruct (ev_dict (event_obj fin W) !! "error") as [v|]; [|done].
  destruct (bool_decide (v ≠ VNone)).
  - by destruct v.
  - by destruct (ev_dict (event_obj fin W) !! "result").
Qed.

Lemma with_loop_isolated_tail_effects (HP : PolicyLaws P) (func : pyfunc)
    (args : list value) (kw : kwargs) (t : nat) (w0 : World St)
    (c : coroutine) (loop' : Loop) (w2 : World St) :
  func args kw = inr c →
  ensure_event_loop P (w_next_thread w0) w0 = (Return loop', w2) →
  w_running w0 !! w_next_thread w0 = None →
  is_running loop' w0 = false →
  is_closed loop' w0 = false →
  w_trace
    ((_L_debug "Execute new loop in background thread.";;
      finished ← Event_new;
      generator ← call func args kw;
      Thread_start (_run P finished generator);;
      threading_wait finished;;
      error ← getattr finished "error";
      if bool_decide (error ≠ VNone) then raise_value error
      else getattr finished "result") t w0).2
  = (rev (run_effects (w_next_event w0) loop' c)
     ++ EvThread (w_next_thread w0) :: EvNew (w_next_event w0)
        :: EvLog "Execute new loop in background thread." :: w_trace w0)%list
  ∧ is_closed loop'
      ((_L_debug "Execute new loop in background thread.";;
        finished ← Event_new;
        generator ← call func args kw;
        Thread_start (_run P finished generator);;
        threading_wait finished;;
        error ← getattr finished "error";
        if bool_decide (error ≠ VNone) then raise_value error
        else getattr finished "result") t w0).2
    = match c with Return _ | Raise _ => true | _ => false end.
Proof.
  intros Hf Heth Hrth Hrun' Hcl'.
  erewrite bind_return; [|reflexivity]. lazy beta.
  erewrite bind_return; [|reflexivity]. lazy beta.
  erewrite bind_return; [|unfold call; rewrite Hf; reflexivity]. lazy beta.
  erewrite bind_return; [|reflexivity]. lazy beta.
  rewrite isolated_wait_frame.
  norm_world.
  match goal with
  | |- context [_run P _ c _ ?W0] => set (W := W0)
  end.
  assert (HeW : ensure_event_loop P (w_next_thread w0) W
                = (Return loop', with_local (w_local w2) W)).
  { rewrite (ensure_event_loop_frame P (w_next_thread w0) w0 W
               eq_refl eq_refl).
    by rewrite Heth. }
  assert (HgW : asyncio_get_event_loop P (w_next_thread w0)
                  (with_local (w_local w2) W)
                = (Return loop', with_local (w_local w2) W)).
  { rewrite (asyncio_get_event_loop_frame P (w_next_thread w0) w2
               (with_local (w_local w2) W) eq_refl).
    - rewrite (ensure_event_loop_then_get P HP _ _ _ _ Heth).
      cbn [fst snd]. by rewrite with_local_idem.
    - destruct (ensure_event_loop_local P (w_next_thread w0) w0) as [s Hs].
      rewrite Heth in Hs. cbn in Hs. by subst w2. }
  exact (_run_effects (w_next_event w0) c (w_next_thread w0) W loop' _
           HeW HgW Hrth Hrun' Hcl').
Qed.

(** X7: the effects of an isolated call, in order: two log lines, the
    creation of the completion signal, the start of the thread, and in the
    thread [run_effects]: the coroutine is driven on the loop of the thread;
    result and error are stored and the flag is raised when it returns or
    raises an [Exception]; the loop of the thread is closed whenever the
    coroutine ends, also on a failure that is not caught. *)
Theorem with_loop_isolated_effects (HP : PolicyLaws P) (func : pyfunc)
    (args : list value) (kw : kwargs) (t : nat) (w : World St) (loop : Loop)
    (w1 : World St) (c : coroutine) (loop' : Loop) (w2 : World St) :
  ensure_event_loop P t w = (Return loop, w1) →
  is_running loop w1 = true
  ∨ (is_running loop w1 = false ∧ w_system w1 = "Windows"
     ∧ loop_type loop = SelectorEventLoop) →
  func args kw = inr c →
  ensure_event_loop P (w_next_thread w1) w1 = (Return loop', w2) →
  w_running w1 !! w_next_thread w1 = None →
  is_running loop' w1 = false →
  is_closed loop' w1 = false →
  (∃ msg,
     since w (with_loop P func args kw t w).2
     = ([EvLog msg; EvLog "Execute new loop in background thread.";
         EvNew (w_next_event w); EvThread (w_next_thread w)]
        ++ run_effects (w_next_event w) loop' c)%list)
  ∧ is_closed loop' (with_loop P func args kw t w).2
    = match c with Return _ | Raise _ => true | _ => false end.
Proof.
  intros He Hwhy Hf Heth Hrth Hrun' Hcl'.
  destruct (ensure_event_loop_local P t w) as [s Hs]. rewrite He in Hs.
  cbn in Hs. subst w1.
  unfold with_loop.
  rewrite (bind_return _ _ t w loop _ He). lazy beta.
  destruct Hwhy as [Hrun|(Hrun & Hsys & Hty)].
  - erewrite bind_return;
      [|unfold loop_is_running; rewrite Hrun; reflexivity]. lazy beta iota.
    erewrite bind_return; [|reflexivity]. lazy beta iota.
    match goal with
    | |- context [(_ ≫= _) t ?W0] => set (W := W0)
    end.
    assert (HeW : ensure_event_loop P (w_next_thread W) W
                  = (Return loop', with_local (w_local w2) W)).
    { change (w_next_thread W) with (w_next_thread (with_local s w)).
      rewrite (ensure_event_loop_frame P _ (with_local s w) W
                 eq_refl eq_refl).
      by rewrite Heth. }
    destruct (with_loop_isolated_tail_effects HP func args kw t W c loop'
                (with_local (w_local w2) W) Hf HeW Hrth Hrun' Hcl')
      as [Htr Hclosed].
    split; [|exact Hclosed]. eexists.
    erewrite (since_app w _
                (rev (run_effects (w_next_event w) loop' c)
                 ++ [EvThread (w_next_thread w); EvNew (w_next_event w);
                     EvLog "Execute new loop in background thread.";
                     EvLog _])%list).
    2:{ rewrite Htr. unfold W. norm_world. by rewrite <- app_assoc. }
    by rewrite rev_app_distr, rev_involutive.
  - erewrite bind_return;
      [|unfold loop_is_running; rewrite Hrun; reflexivity]. lazy beta iota.
    erewrite bind_return;
      [|unfold mbind, M_bind, bind, platform_system,
          asyncio_ProactorEventLoop;
        rewrite Hsys, Hty; reflexivity].
    lazy beta iota.
    match goal with
    | |- context [(_ ≫= _) t ?W0] => set (W := W0)
    end.
    assert (HeW : ensure_event_loop P (w_next_thread W) W
                  = (Return loop', with_local (w_local w2) W)).
    { change (w_next_thread W) with (w_next_thread (with_local s w)).
      rewrite (ensure_event_loop_frame P _ (with_local s w) W
                 eq_refl eq_refl).
      by rewrite Heth. }
    destruct (with_loop_isolated_tail_effects HP func args kw t W c loop'
                (with_local (w_local w2) W) Hf HeW Hrth Hrun' Hcl')
      as [Htr Hclosed].
    split; [|exact Hclosed]. eexists.
    erewrite (since_app w _
                (rev (run_effects (w_next_event w) loop' c)
                 ++ [EvThread (w_next_thread w); EvNew (w_next_event w);
                     EvLog "Execute new loop in background thread.";
                     EvLog _])%list).
    2:{ rewrite Htr. unfold W. norm_world. by rewrite <- app_assoc. }
    by rewrite rev_app_distr, rev_involutive.
Qed.


(** X8: on the isolation path, when [ensure_event_loop] raises in the
    background thread, the thread ends before its [try] statement, the flag
    is never raised and the caller stays blocked; the coroutine is not
    driven. *)
Theorem with_loop_isolated_thread_without_loop (func : pyfunc)
    (args : list value) (kw : kwargs) (t : nat) (w : World St) (loop : Loop)
    (w1 : World St) (c : coroutine) (e : exn) (w2 : World St) :
  ensure_event_loop P t w = (Return loop, w1) →
  is_running loop w1 = true
  ∨ (is_running loop w1 = false ∧ w_system w1 = "Windows"
     ∧ loop_type loop = SelectorEventLoop) →
  func args kw = inr c →
  ensure_event_loop P (w_next_thread w1) w1 = (Raise e, w2) →
  (with_loop P func args kw t w).1 = Blocked
  ∧ ∀ l, EvRun l ∉ since w (with_loop P func args kw t w).2.
Proof.
  intros He Hwhy Hf Heth.
  destruct (ensure_event_loop_local P t w) as [s Hs]. rewrite He in Hs.
  cbn in Hs. subst w1.
  destruct (ensure_event_loop_local P (w_next_thread (with_local s w))
              (with_local s w)) as [s2 Hs2].
  rewrite Heth in Hs2. cbn [snd] in Hs2. subst w2.
  assert (Htail : ∀ W : World St,
            w_local W = s → w_running W = w_running w →
            w_next_thread W = w_next_thread w →
            ∃ W',
              (_L_debug "Execute new loop in background thread.";;
               finished ← Event_new;
               generator ← call func args kw;
               Thread_start (_run P finished generator);;
               threading_wait finished;;
               error ← getattr finished "error";
               if bool_decide (error ≠ VNone) then raise_value error
               else getattr finished "result") t W = (Blocked, W')
              ∧ w_trace W'
                = (EvThread (w_next_thread W) :: EvNew (w_next_event W)
                   :: EvLog "Execute new loop in background thread."
                   :: w_trace W)).
  { intros W HWl HWr HWt.
    erewrite bind_return; [|reflexivity]. lazy beta.
    erewrite bind_return; [|reflexivity]. lazy beta.
    erewrite bind_return; [|unfold call; rewrite Hf; reflexivity]. lazy beta.
    erewrite bind_return; [|reflexivity]. lazy beta.
    norm_world.
    match goal with
    | |- context [_run P _ c _ ?W0] => set (W0' := W0)
    end.
    assert (HeW : ensure_event_loop P (w_next_thread W) W0'
                  = (Raise e, with_local s2 W0')).
    { rewrite HWt.
      rewrite (ensure_event_loop_frame P (w_next_thread w) (with_local s w)
                 W0');
        [|unfold W0'; norm_world; exact HWl
         |unfold W0'; norm_world; by rewrite HWr].
      change (w_next_thread w) with (w_next_thread (with_local s w)).
      by rewrite Heth. }
    assert (Hth : _run P (w_next_event W) c (w_next_thread W) W0'
                  = (Raise e, with_local s2 W0')).
    { unfold _run. erewrite bind_raise; [reflexivity|exact HeW]. }
    rewrite Hth. cbn [snd]. eexists. split.
    - erewrite bind_blocked; [reflexivity|].
      rewrite threading_wait_flag. autorewrite with frame.
      unfold W0', event_obj. norm_world. rewrite lookup_insert_eq.
      reflexivity.
    - reflexivity. }
  unfold with_loop.
  rewrite (bind_return _ _ t w loop _ He). lazy beta.
  destruct Hwhy as [Hrun|(Hrun & Hsys & Hty)].
  - erewrite bind_return;
      [|unfold loop_is_running; rewrite Hrun; reflexivity]. lazy beta iota.
    erewrite bind_return; [|reflexivity]. lazy beta iota.
    match goal with
    | |- context [(_ ≫= _) t ?W0] =>
        destruct (Htail W0 eq_refl eq_refl eq_refl) as (W' & -> & Htr)
    end.
    split; [done|]. intros l. cbn [snd].
    erewrite (since_app w W' [_; _; _; _]); [|exact Htr].
    cbn. intros Hin.
    repeat (apply elem_of_cons in Hin as [Hin|Hin]; [discriminate|]).
    by apply elem_of_nil in Hin.
  - erewrite bind_return;
      [|unfold loop_is_running; rewrite Hrun; reflexivity]. lazy beta iota.
    erewrite bind_return;
      [|unfold mbind, M_bind, bind, platform_system,
          asyncio_ProactorEventLoop;
        rewrite Hsys, Hty; reflexivity].
    lazy beta iota.
    match goal with
    | |- context [(_ ≫= _) t ?W0] =>
        destruct (Htail W0 eq_refl eq_refl eq_refl) as (W' & -> & Htr)
    end.
    split; [done|]. intros l. cbn [snd].
    erewrite (since_app w W' [_; _; _; _]); [|exact Htr].
    cbn. intros Hin.
    repeat (apply elem_of_cons in Hin as [Hin|Hin]; [discriminate|]).
    by apply elem_of_nil in Hin.
Qed.

End Calls.

(** ** [ensure_event_loop] under CPython's default policy *)

Lemma contains_no_current_loop (rest : string) :
  contains no_current_loop ("There is no current event loop in thread '" ++ rest)
  = true.
Proof. reflexivity. Qed.

(** A thread with no loop, neither running nor bound, gets a new one: made
    by [get_event_loop] itself in the main thread, by the recovery of
    [ensure_event_loop] elsewhere. *)
Lemma ensure_event_loop_default_unbound (t : nat) (w : World DefaultPolicy) :
  w_running w !! t = None →
  dp_loop (w_local w) !! t = None →
  ∃ s,
    ensure_event_loop default_policy t w
    = (Return (MkLoop (dp_next (w_local w)) (dp_loop_factory (w_local w))),
       with_local s w)
    ∧ dp_loop s
      = <[t := MkLoop (dp_next (w_local w)) (dp_loop_factory (w_local w))]>
          (dp_loop (w_local w))
    ∧ dp_next s = S (dp_next (w_local w)).
Proof.
  intros Hr Hl.
  unfold ensure_event_loop, try_except, asyncio_get_event_loop. rewrite Hr.
  cbn [pol_get_event_loop default_policy]. unfold dp_get_event_loop.
  rewrite Hl. rewrite bool_decide_eq_true_2 by done. cbn [andb].
  destruct (bool_decide (t ∉ dp_set_called (w_local w))
            && bool_decide (t = MainThread)); cbn.
  - rewrite lookup_insert_eq. by eexists.
  - rewrite Hl. cbn [fst snd].
    change (isinstance (Exn RuntimeError _) RuntimeError) with true.
    cbn [exn_str]. rewrite contains_no_current_loop.
    unfold mbind, M_bind, bind, new_file_event_loop, asyncio_new_event_loop,
      asyncio_set_event_loop. cbn.
    by eexists.
Qed.

(** X16: under CPython's default policy [ensure_event_loop] never
    raises.  It returns the loop running in the thread; otherwise the loop
    bound to the thread; otherwise a new loop of the policy's class, which is
    then bound to the thread.  The loops bound to the other threads are left
    as they are. *)
Theorem ensure_event_loop_default (t : nat) (w : World DefaultPolicy) :
  (ensure_event_loop default_policy t w).1
  = Return
      (match w_running w !! t with
       | Some l => l
       | None =>
           default (MkLoop (dp_next (w_local w)) (dp_loop_factory (w_local w)))
             (dp_loop (w_local w) !! t)
       end)
  ∧ (w_running w !! t = None →
     dp_loop (w_local (ensure_event_loop default_policy t w).2) !! t
     = Some (default (MkLoop (dp_next (w_local w))
                        (dp_loop_factory (w_local w)))
               (dp_loop (w_local w) !! t)))
  ∧ (∀ t', t' ≠ t →
       dp_loop (w_local (ensure_event_loop default_policy t w).2) !! t'
       = dp_loop (w_local w) !! t').
Proof.
  destruct (w_running w !! t) as [l|] eqn:Hr.
  { rewrite (ensure_event_loop_running default_policy t w l Hr).
    split; [done|]. split; [done|]. done. }
  destruct (dp_loop (w_local w) !! t) as [l|] eqn:Hl.
  - rewrite (ensure_event_loop_bound default_policy t w l (w_local w) Hr).
    + cbn. split; [done|]. split; [done|]. done.
    + cbn. unfold dp_get_event_loop. rewrite Hl. cbn. by rewrite Hl.
  - destruct (ensure_event_loop_default_unbound t w Hr Hl) as (s & -> & Hs & _).
    cbn. rewrite Hs. split; [done|]. split.
    + intros _. apply lookup_insert_eq.
    + intros t' Hne. by rewrite lookup_insert_ne.
Qed.


(** ** The package's test of [with_loop] *)

(** X18: [test_with_loop] never reaches its assertion.  Off Windows the
    wrapper raises the [AttributeError] of [asyncio.ProactorEventLoop]; on
    Windows with a proactor loop it raises the [TypeError] of [foo] called
    without its argument; on Windows with a selector loop it returns "hello",
    which [loop.run_until_complete] refuses. *)
Theorem test_with_loop_always_raises (system : string)
    (factory : loop_class) :
  (test_with_loop_result default_policy MainThread (boot system factory)).1
  = Raise
      (if bool_decide (system = "Windows") then
         match factory with
         | ProactorEventLoop =>
             Exn TypeError
               "foo() missing 1 required positional argument: 'a_'"
         | SelectorEventLoop =>
             Exn TypeError
               "An asyncio.Future, a coroutine or an awaitable is required"
         end
       else
         Exn AttributeError
           "module 'asyncio' has no attribute 'ProactorEventLoop'").
Proof.
  destruct (decide (system = "Windows")) as [->|Hne].
  - by destruct factory; vm_compute.
  - rewrite bool_decide_eq_false_2 by done.
    unfold test_with_loop_result.
    erewrite bind_return; [|reflexivity]. lazy beta.
    erewrite bind_raise; [reflexivity|].
    unfold with_loop.
    erewrite bind_return; [|reflexivity]. lazy beta.
    erewrite (bind_return _ _ _ _ false); [|reflexivity]. lazy beta iota.
    erewrite bind_raise; [reflexivity|].
    erewrite bind_return; [|reflexivity]. lazy beta.
    erewrite bind_raise; [reflexivity|].
    unfold asyncio_ProactorEventLoop.
    by rewrite bool_decide_eq_false_2.
Qed.

(** ** The theorems at work *)

Ltac by_running :=
  first [ vm_compute; reflexivity
        | left; vm_compute; reflexivity
        | vm_compute; discriminate
        | vm_compute; lia
        | repeat constructor ].

Lemma with_loop_idle_needs_windows_witness :
  with_loop default_policy foo [VStr "hello"] ∅ MainThread
    (boot "Linux" SelectorEventLoop)
  = (Raise (Exn AttributeError
              "module 'asyncio' has no attribute 'ProactorEventLoop'"),
     (ensure_event_loop default_policy MainThread
        (boot "Linux" SelectorEventLoop)).2).
Proof.
  apply (with_loop_idle_needs_windows default_policy foo [VStr "hello"] ∅
           MainThread (boot "Linux" SelectorEventLoop)
           (MkLoop 0 SelectorEventLoop));
    by_running.
Defined.

Lemma with_loop_isolated_call_raises_witness :
  (with_loop default_policy foo [] ∅ MainThread
     (serving "Linux" SelectorEventLoop)).1
  = Raise (Exn TypeError
             "foo() missing 1 required positional argument: 'a_'").
Proof.
  refine (proj1 (with_loop_isolated_call_raises default_policy foo [] ∅
                   MainThread (serving "Linux" SelectorEventLoop)
                   (MkLoop 0 SelectorEventLoop)
                   (serving "Linux" SelectorEventLoop)
                   (Exn TypeError
                      "foo() missing 1 required positional argument: 'a_'")
                   _ _ _));
    by_running.
Defined.

Lemma with_loop_isolated_effects_witness :
  is_closed (MkLoop 1 SelectorEventLoop)
    (with_loop default_policy foo [VStr "hello"] ∅ MainThread
       (serving "Linux" SelectorEventLoop)).2
  = true.
Proof.
  refine (proj2 (with_loop_isolated_effects default_policy
                   default_policy_laws foo [VStr "hello"] ∅ MainThread
                   (serving "Linux" SelectorEventLoop)
                   (MkLoop 0 SelectorEventLoop)
                   (serving "Linux" SelectorEventLoop)
                   (Return (VStr "hello")) (MkLoop 1 SelectorEventLoop)
                   (ensure_event_loop default_policy 1
                      (serving "Linux" SelectorEventLoop)).2
                   _ _ _ _ _ _ _));
    by_running.
Defined.

Lemma with_loop_isolated_thread_without_loop_witness :
  (with_loop main_only_policy foo [VStr "hello"] ∅ MainThread
     (inside MainThread (MkLoop 0 SelectorEventLoop) (boot_with () "Linux"))).1
  = Blocked.
Proof.
  refine (proj1 (with_loop_isolated_thread_without_loop main_only_policy foo
                   [VStr "hello"] ∅ MainThread
                   (inside MainThread (MkLoop 0 SelectorEventLoop)
                      (boot_with () "Linux"))
                   (MkLoop 0 SelectorEventLoop)
                   (inside MainThread (MkLoop 0 SelectorEventLoop)
                      (boot_with () "Linux"))
                   (Return (VStr "hello"))
                   (Exn RuntimeError "event loops are for the main thread")
                   (inside MainThread (MkLoop 0 SelectorEventLoop)
                      (boot_with () "Linux"))
                   _ _ _ _));
    by_running.
Defined.

(** A worker thread whose loop was closed. *)
Lemma cancellable_wrapped_result_witness :
  (cancellable_wrapped default_policy 0 foo [VInt 1] ∅ 1
     (loop_close (MkLoop 0 SelectorEventLoop) 1
        (ensure_event_loop default_policy 1
           (boot "Linux" SelectorEventLoop)).2).2).1
  = Raise (Exn RuntimeError "Event loop is closed").
Proof.
  rewrite (cancellable_wrapped_result default_policy 0 foo [VInt 1] ∅ 1
             (loop_close (MkLoop 0 SelectorEventLoop) 1
                (ensure_event_loop default_policy 1
                   (boot "Linux" SelectorEventLoop)).2).2
             (MkLoop 0 SelectorEventLoop)
             (loop_close (MkLoop 0 SelectorEventLoop) 1
                (ensure_event_loop default_policy 1
                   (boot "Linux" SelectorEventLoop)).2).2);
    by_running.
Defined.

Lemma cancellable_wrapped_signal_witness :
  event_obj 0
    (cancellable_wrapped default_policy 0 foo [VInt 1] ∅ 1
       (boot "Linux" SelectorEventLoop)).2
  = MkEvent true
      (<["loop" := VLoop (MkLoop 0 SelectorEventLoop)]>
         (ev_dict (event_obj 0 (boot "Linux" SelectorEventLoop)))).
Proof.
  apply (proj1 (cancellable_wrapped_signal default_policy 0 foo [VInt 1] ∅ 1
                  (boot "Linux" SelectorEventLoop))
           (MkLoop 0 SelectorEventLoop)
           (ensure_event_loop default_policy 1
              (boot "Linux" SelectorEventLoop)).2);
    by_running.
Defined.

Lemma cancel_after_call_witness :
  (cancellable_cancel 0 MainThread
     (cancellable_wrapped default_policy 0 foo [VInt 1] ∅ 1
        (boot "Linux" SelectorEventLoop)).2).1
  = Return ().
Proof.
  refine (proj1 (proj1 (cancel_after_call default_policy foo MainThread
                          (boot "Linux" SelectorEventLoop) [VInt 1] ∅ 1
                          (boot "Linux" SelectorEventLoop)
                          (MkLoop 0 SelectorEventLoop)
                          (ensure_event_loop default_policy 1
                             (boot "Linux" SelectorEventLoop)).2
                          MainThread _) _));
    by_running.
Defined.

(** The second enumeration fails with an error that is no [RuntimeError]. *)
Lemma cancel_retries_only_RuntimeError_witness :
  (_cancel default_policy 3 MainThread
     (with_faults
        [Exn RuntimeError "Set changed size during iteration";
         Exn ValueError "not a task set"] sweeping)).1
  = Raise (Exn ValueError "not a task set").
Proof.
  refine (proj1 (cancel_retries_only_RuntimeError default_policy 3 MainThread
                   (with_faults
                      [Exn RuntimeError "Set changed size during iteration";
                       Exn ValueError "not a task set"] sweeping)
                   (MkLoop 0 SelectorEventLoop)
                   (with_faults
                      [Exn RuntimeError "Set changed size during iteration";
                       Exn ValueError "not a task set"] sweeping)
                   [Exn RuntimeError "Set changed size during iteration"]
                   (Exn ValueError "not a task set") [] _ _ _ _ _));
    by_running.
Defined.


Lemma sync_synced_closed_loop_witness :
  (sync_synced default_policy (MkLoop 0 SelectorEventLoop) 0 foo [VInt 1]
     MainThread
     (loop_close (MkLoop 0 SelectorEventLoop) MainThread
        (boot "Linux" SelectorEventLoop)).2).1
  = Raise (Exn RuntimeError "Event loop is closed").
Proof.
  refine (proj1 (sync_synced_closed_loop default_policy
                   (MkLoop 0 SelectorEventLoop) 0 foo [VInt 1] MainThread
                   (loop_close (MkLoop 0 SelectorEventLoop) MainThread
                      (boot "Linux" SelectorEventLoop)).2
                   (VInt 1) _ _));
    by_running.
Defined.

(** The flag was raised by an earlier call; no loop runs in the thread. *)
Lemma sync_waits_for_first_call_only_witness :
  (sync_synced default_policy (MkLoop 0 SelectorEventLoop) 0 foo [VInt 1]
     MainThread
     (Event_set 0 MainThread (boot "Linux" SelectorEventLoop)).2).1
  = await_call foo [VInt 1] ∅.
Proof.
  refine (proj1 (proj2 (sync_waits_for_first_call_only default_policy
                          (MkLoop 0 SelectorEventLoop) 0 foo [VInt 1]
                          MainThread
                          (Event_set 0 MainThread
                             (boot "Linux" SelectorEventLoop)).2)
                   _ _));
    by_running.
Defined.

